(** * Keccak-f[1600] and the streaming sponge of native/c/keccak

    A shallow embedding of [keccak1600.h] / [keccak1600.c]:

    - 64-bit lanes and bytes are integers in [Z]; the truncation of the C
      operators to 64 bits is written out ([mod 2^64]);
    - the state [uint64_t a[25]] is a list of 25 lanes; the byte view
      of [ctx->a] as [uint8_t]s is the little-endian view of those lanes (the
      header documents the lanes as little-endian when absorbing/squeezing);
    - [size_t] is taken to be 64 bits wide; additions and subtractions that
      can wrap are written with [size_add] / [size_sub];
    - functions that can run forever, read through a null pointer or index
      outside the 200-byte state return an [outcome]; loops whose bound is
      not structural take fuel, and [OutOfFuel] is the only way fuel is
      observed.
*)

From Stdlib Require Import ZArith Lia Bool String Ascii.
From stdpp Require Import base numbers list.

Open Scope Z_scope.

(** ** Outcomes *)

Inductive outcome (A : Type) : Type :=
| Done (x : A)
| OutOfFuel
| Fault.
Arguments Done {A} x.
Arguments OutOfFuel {A}.
Arguments Fault {A}.

#[global] Instance outcome_ret : MRet outcome := fun A x => Done x.
#[global] Instance outcome_bind : MBind outcome := fun A B f m =>
  match m with
  | Done x => f x
  | OutOfFuel => OutOfFuel
  | Fault => Fault
  end.
#[global] Instance outcome_fmap : FMap outcome := fun A B f m =>
  match m with
  | Done x => Done (f x)
  | OutOfFuel => OutOfFuel
  | Fault => Fault
  end.

(** ** Machine integers *)

Definition U64_MOD : Z := 2 ^ 64.
Definition SIZE_MOD : Z := 2 ^ 64.

Definition size_add (x y : Z) : Z := (x + y) mod SIZE_MOD.
Definition size_sub (x y : Z) : Z := (x - y) mod SIZE_MOD.

(** [~x] on a [uint64_t]. *)
Definition not64 (x : Z) : Z := Z.lnot x mod U64_MOD.

(** [keccak_rotl64], portable branch:
    [(x << (n & 63)) | (x >> ((64 - n) & 63))]. *)
Definition keccak_rotl64 (x n : Z) : Z :=
  Z.lor (Z.shiftl x (Z.land n 63) mod U64_MOD)
        (Z.shiftr x (Z.land (64 - n) 63)).

(** ** The permutation *)

Definition KECCAK_RC : list Z :=
  [ 0x0000000000000001; 0x0000000000008082;
    0x800000000000808a; 0x8000000080008000;
    0x000000000000808b; 0x0000000080000001;
    0x8000000080008081; 0x8000000000008009;
    0x000000000000008a; 0x0000000000000088;
    0x0000000080008009; 0x000000008000000a;
    0x000000008000808b; 0x800000000000008b;
    0x8000000000008089; 0x8000000000008003;
    0x8000000000008002; 0x8000000000000080;
    0x000000000000800a; 0x800000008000000a;
    0x8000000080008081; 0x8000000000008080;
    0x0000000080000001; 0x8000000080008008 ].

(** The 25 local variables [aXY] of [keccakf1600] (X = column, Y = row),
    in the order in which they are loaded from [s]. *)
Inductive regs : Type :=
  Regs (a00 a10 a20 a30 a40
        a01 a11 a21 a31 a41
        a02 a12 a22 a32 a42
        a03 a13 a23 a33 a43
        a04 a14 a24 a34 a44 : Z).

Module LaneNotations.
Infix ".^" := Z.lxor (at level 40, left associativity).
Infix ".&" := Z.land (at level 40, left associativity).
End LaneNotations.
Import LaneNotations.

(** The macro [KECCAK_ROUND(RC)], assignment by assignment. *)
Definition KECCAK_ROUND (RC : Z) (r : regs) : regs :=
  let '(Regs a00 a10 a20 a30 a40 a01 a11 a21 a31 a41 a02 a12 a22 a32 a42
             a03 a13 a23 a33 a43 a04 a14 a24 a34 a44) := r in
  (* theta *)
  let c0 := a00 .^ a01 .^ a02 .^ a03 .^ a04 in
  let c1 := a10 .^ a11 .^ a12 .^ a13 .^ a14 in
  let c2 := a20 .^ a21 .^ a22 .^ a23 .^ a24 in
  let c3 := a30 .^ a31 .^ a32 .^ a33 .^ a34 in
  let c4 := a40 .^ a41 .^ a42 .^ a43 .^ a44 in
  let d0 := c4 .^ keccak_rotl64 c1 1 in
  let d1 := c0 .^ keccak_rotl64 c2 1 in
  let d2 := c1 .^ keccak_rotl64 c3 1 in
  let d3 := c2 .^ keccak_rotl64 c4 1 in
  let d4 := c3 .^ keccak_rotl64 c0 1 in
  let a00 := a00 .^ d0 in let a01 := a01 .^ d0 in let a02 := a02 .^ d0 in
  let a03 := a03 .^ d0 in let a04 := a04 .^ d0 in
  let a10 := a10 .^ d1 in let a11 := a11 .^ d1 in let a12 := a12 .^ d1 in
  let a13 := a13 .^ d1 in let a14 := a14 .^ d1 in
  let a20 := a20 .^ d2 in let a21 := a21 .^ d2 in let a22 := a22 .^ d2 in
  let a23 := a23 .^ d2 in let a24 := a24 .^ d2 in
  let a30 := a30 .^ d3 in let a31 := a31 .^ d3 in let a32 := a32 .^ d3 in
  let a33 := a33 .^ d3 in let a34 := a34 .^ d3 in
  let a40 := a40 .^ d4 in let a41 := a41 .^ d4 in let a42 := a42 .^ d4 in
  let a43 := a43 .^ d4 in let a44 := a44 .^ d4 in
  (* rho, pi *)
  let b00 := a00 in
  let b10 := keccak_rotl64 a01 1 in  let b20 := keccak_rotl64 a02 62 in
  let b30 := keccak_rotl64 a03 28 in let b40 := keccak_rotl64 a04 27 in
  let b01 := keccak_rotl64 a10 36 in let b11 := keccak_rotl64 a11 44 in
  let b21 := keccak_rotl64 a12 6 in  let b31 := keccak_rotl64 a13 55 in
  let b41 := keccak_rotl64 a14 20 in
  let b02 := keccak_rotl64 a20 3 in  let b12 := keccak_rotl64 a21 10 in
  let b22 := keccak_rotl64 a22 43 in let b32 := keccak_rotl64 a23 25 in
  let b42 := keccak_rotl64 a24 39 in
  let b03 := keccak_rotl64 a30 41 in let b13 := keccak_rotl64 a31 45 in
  let b23 := keccak_rotl64 a32 15 in let b33 := keccak_rotl64 a33 21 in
  let b43 := keccak_rotl64 a34 8 in
  let b04 := keccak_rotl64 a40 18 in let b14 := keccak_rotl64 a41 2 in
  let b24 := keccak_rotl64 a42 61 in let b34 := keccak_rotl64 a43 56 in
  let b44 := keccak_rotl64 a44 14 in
  (* chi, row-wise *)
  let a00 := b00 .^ (not64 b10 .& b20) in
  let a10 := b10 .^ (not64 b20 .& b30) in
  let a20 := b20 .^ (not64 b30 .& b40) in
  let a30 := b30 .^ (not64 b40 .& b00) in
  let a40 := b40 .^ (not64 b00 .& b10) in
  let a01 := b01 .^ (not64 b11 .& b21) in
  let a11 := b11 .^ (not64 b21 .& b31) in
  let a21 := b21 .^ (not64 b31 .& b41) in
  let a31 := b31 .^ (not64 b41 .& b01) in
  let a41 := b41 .^ (not64 b01 .& b11) in
  let a02 := b02 .^ (not64 b12 .& b22) in
  let a12 := b12 .^ (not64 b22 .& b32) in
  let a22 := b22 .^ (not64 b32 .& b42) in
  let a32 := b32 .^ (not64 b42 .& b02) in
  let a42 := b42 .^ (not64 b02 .& b12) in
  let a03 := b03 .^ (not64 b13 .& b23) in
  let a13 := b13 .^ (not64 b23 .& b33) in
  let a23 := b23 .^ (not64 b33 .& b43) in
  let a33 := b33 .^ (not64 b43 .& b03) in
  let a43 := b43 .^ (not64 b03 .& b13) in
  let a04 := b04 .^ (not64 b14 .& b24) in
  let a14 := b14 .^ (not64 b24 .& b34) in
  let a24 := b24 .^ (not64 b34 .& b44) in
  let a34 := b34 .^ (not64 b44 .& b04) in
  let a44 := b44 .^ (not64 b04 .& b14) in
  (* iota *)
  let a00 := a00 .^ RC in
  Regs a00 a10 a20 a30 a40 a01 a11 a21 a31 a41 a02 a12 a22 a32 a42
       a03 a13 a23 a33 a43 a04 a14 a24 a34 a44.

(** [uint64_t a00 = s[0], a10 = s[1], ...]. *)
Definition load_lanes (s : list Z) : regs :=
  Regs (s !!! 0%nat) (s !!! 1%nat) (s !!! 2%nat) (s !!! 3%nat) (s !!! 4%nat)
       (s !!! 5%nat) (s !!! 6%nat) (s !!! 7%nat) (s !!! 8%nat) (s !!! 9%nat)
       (s !!! 10%nat) (s !!! 11%nat) (s !!! 12%nat) (s !!! 13%nat) (s !!! 14%nat)
       (s !!! 15%nat) (s !!! 16%nat) (s !!! 17%nat) (s !!! 18%nat) (s !!! 19%nat)
       (s !!! 20%nat) (s !!! 21%nat) (s !!! 22%nat) (s !!! 23%nat) (s !!! 24%nat).

(** [s[0] = a00; s[1] = a10; ...]. *)
Definition store_lanes (r : regs) : list Z :=
  let '(Regs a00 a10 a20 a30 a40 a01 a11 a21 a31 a41 a02 a12 a22 a32 a42
             a03 a13 a23 a33 a43 a04 a14 a24 a34 a44) := r in
  [a00; a10; a20; a30; a40; a01; a11; a21; a31; a41; a02; a12; a22; a32; a42;
   a03; a13; a23; a33; a43; a04; a14; a24; a34; a44].

(** The 24 unrolled invocations [KECCAK_ROUND(KECCAK_RC[0])] ...
    [KECCAK_ROUND(KECCAK_RC[23])], in table order. *)
Definition keccak_rounds (r : regs) : regs :=
  foldl (fun r rc => KECCAK_ROUND rc r) r KECCAK_RC.

Definition keccakf1600 (s : list Z) : list Z :=
  store_lanes (keccak_rounds (load_lanes s)).
Arguments keccakf1600 : simpl never.

(** [keccak_state_zero]. *)
Definition keccak_state_zero : list Z := replicate 25 0.

(** ** The byte view of the state *)

(** Byte [k] (0..7) of a little-endian 64-bit lane, and the lane with that
    byte replaced. *)
Definition lane_get_byte (w k : Z) : Z := Z.land (Z.shiftr w (8 * k)) 255.
Definition lane_set_byte (w k b : Z) : Z :=
  Z.lor (Z.ldiff w (Z.shiftl 255 (8 * k))) (Z.shiftl (Z.land b 255) (8 * k)).

(** [st[i]] read as a value, without the bounds check. *)
Definition byte_at (s : list Z) (i : Z) : Z :=
  lane_get_byte (s !!! Z.to_nat (i / 8)) (i mod 8).

(** [st[i] = b], without the bounds check. *)
Definition set_byte_at (s : list Z) (i b : Z) : list Z :=
  <[Z.to_nat (i / 8) := lane_set_byte (s !!! Z.to_nat (i / 8)) (i mod 8) b]> s.

Definition in_state (i : Z) : bool := (0 <=? i) && (i <? 200).

(** Checked accesses: an index outside the 200 bytes of [a[25]] is a
    fault. *)
Definition st_get (s : list Z) (i : Z) : outcome Z :=
  if in_state i then Done (byte_at s i) else Fault.
Definition st_set (s : list Z) (i b : Z) : outcome (list Z) :=
  if in_state i then Done (set_byte_at s i b) else Fault.

(** [st[i] ^= v]. *)
Definition st_xor (s : list Z) (i v : Z) : outcome (list Z) :=
  b ← st_get s i; st_set s i (Z.lxor b v).

(** An input pointer: [None] is the null pointer, [Some buf] points to the
    first byte of [buf].  Reading through null or past the buffer is a
    fault. *)
Definition in_get (p : option (list Z)) (i : Z) : outcome Z :=
  match p with
  | None => Fault
  | Some buf =>
      if 0 <=? i then
        match buf !! Z.to_nat i with
        | Some b => Done b
        | None => Fault
        end
      else Fault
  end.

(** [for (size_t i = 0; i < t; i++) st[pos + i] ^= in[i];] where [in] is
    the pointer [p] advanced by [off]. *)
Fixpoint xor_loop (n : nat) (i : Z) (st : list Z) (pos : Z)
    (p : option (list Z)) (off : Z) : outcome (list Z) :=
  match n with
  | O => Done st
  | S n' =>
      v ← in_get p (off + i);
      st' ← st_xor st (size_add pos i) v;
      xor_loop n' (i + 1) st' pos p off
  end.

Definition xor_in (st : list Z) (pos : Z) (p : option (list Z)) (off t : Z)
    : outcome (list Z) :=
  xor_loop (Z.to_nat t) 0 st pos p off.

(** [memcpy(out, st + pos, t)]: the [t] bytes copied out. *)
Fixpoint read_loop (n : nat) (st : list Z) (i : Z) : outcome (list Z) :=
  match n with
  | O => Done []
  | S n' => b ← st_get st i; bs ← read_loop n' st (i + 1); Done (b :: bs)
  end.

Definition st_read (st : list Z) (pos t : Z) : outcome (list Z) :=
  read_loop (Z.to_nat t) st pos.

(** ** The sponge context *)

Record keccak1600_ctx : Type := Ctx {
  ctx_a : list Z;
  ctx_rate : Z;
  ctx_pos : Z;
  ctx_delim : Z
}.

Definition keccak1600_init (rate delim : Z) : keccak1600_ctx :=
  {| ctx_a := keccak_state_zero; ctx_rate := rate; ctx_pos := 0;
     ctx_delim := delim |}.

(** The sponge functions, with the callee [keccakf1600(ctx->a)] taken as
    the section variable [permute]; they are instantiated with
    [keccakf1600] below. *)
Section Sponge.
Variable permute : list Z -> list Z.

(** One iteration of [while (inlen >= rate)]. *)
Definition absorb_block (rate : Z) (p : option (list Z))
    (s : list Z * Z * Z) : outcome (list Z * Z * Z) :=
  let '(st, off, inlen) := s in
  st ← xor_in st 0 p off rate;
  Done (permute st, off + rate, inlen - rate).

Fixpoint absorb_blocks (fuel : nat) (rate : Z) (p : option (list Z))
    (s : list Z * Z * Z) : outcome (list Z * Z * Z) :=
  if s.2 >=? rate then
    match fuel with
    | O => OutOfFuel
    | S fuel' => s' ← absorb_block rate p s; absorb_blocks fuel' rate p s'
    end
  else Done s.

(** The [if (pos) { ... }] prologue: returns the state, [pos], the
    offset of [in] and the remaining [inlen]. *)
Definition absorb_head (st : list Z) (rate pos : Z) (p : option (list Z))
    (inlen : Z) : outcome (list Z * Z * Z * Z) :=
  if pos =? 0 then Done (st, pos, 0, inlen)
  else
    let t := size_sub rate pos in
    let t := if t >? inlen then inlen else t in
    st ← xor_in st pos p 0 t;
    let pos := size_add pos t in
    let off := t in
    let inlen := inlen - t in
    if pos =? rate then Done (permute st, 0, off, inlen)
    else Done (st, pos, off, inlen).

(** The [if (inlen) { ... }] epilogue. *)
Definition absorb_tail (st : list Z) (pos : Z) (p : option (list Z))
    (off inlen : Z) : outcome (list Z * Z) :=
  if inlen =? 0 then Done (st, pos)
  else st ← xor_in st pos p off inlen; Done (st, size_add pos inlen).

Definition sponge_absorb (fuel : nat) (ctx : keccak1600_ctx)
    (p : option (list Z)) (inlen : Z) : outcome keccak1600_ctx :=
  let rate := ctx_rate ctx in
  '(st, pos, off, inlen) ← absorb_head (ctx_a ctx) rate (ctx_pos ctx) p inlen;
  '(st, off, inlen) ← absorb_blocks fuel rate p (st, off, inlen);
  '(st, pos) ← absorb_tail st pos p off inlen;
  Done {| ctx_a := st; ctx_rate := rate; ctx_pos := pos;
          ctx_delim := ctx_delim ctx |}.

Definition sponge_finalize (ctx : keccak1600_ctx) : outcome keccak1600_ctx :=
  let rate := ctx_rate ctx in
  st ← st_xor (ctx_a ctx) (ctx_pos ctx) (ctx_delim ctx);
  st ← st_xor st (size_sub rate 1) 0x80;
  Done {| ctx_a := permute st; ctx_rate := rate; ctx_pos := 0;
          ctx_delim := ctx_delim ctx |}.

(** One iteration of [while (outlen)]: the state, [pos], the bytes
    written so far and the remaining [outlen]. *)
Definition squeeze_chunk (rate : Z) (s : list Z * Z * list Z * Z)
    : outcome (list Z * Z * list Z * Z) :=
  let '(st, pos, out, outlen) := s in
  let '(st, pos) := if pos =? rate then (permute st, 0) else (st, pos) in
  let t := size_sub rate pos in
  let t := if t >? outlen then outlen else t in
  bs ← st_read st pos t;
  Done (st, size_add pos t, out ++ bs, outlen - t).

Fixpoint squeeze_loop (fuel : nat) (rate : Z) (s : list Z * Z * list Z * Z)
    : outcome (list Z * Z * list Z * Z) :=
  if s.2 =? 0 then Done s
  else
    match fuel with
    | O => OutOfFuel
    | S fuel' => s' ← squeeze_chunk rate s; squeeze_loop fuel' rate s'
    end.

(** Returns the bytes written to [out] and the updated context. *)
Definition sponge_squeeze (fuel : nat) (ctx : keccak1600_ctx) (outlen : Z)
    : outcome (list Z * keccak1600_ctx) :=
  let rate := ctx_rate ctx in
  '(st, pos, out, _) ← squeeze_loop fuel rate (ctx_a ctx, ctx_pos ctx, [], outlen);
  Done (out, {| ctx_a := st; ctx_rate := rate; ctx_pos := pos;
                ctx_delim := ctx_delim ctx |}).
End Sponge.

Definition keccak1600_absorb := sponge_absorb keccakf1600.
Definition keccak1600_finalize := sponge_finalize keccakf1600.
Definition keccak1600_squeeze := sponge_squeeze keccakf1600.

(** ** One-shot helpers *)

Definition KECCAK_RATE_SHA3_224 : Z := 144.
Definition KECCAK_RATE_SHA3_256 : Z := 136.
Definition KECCAK_RATE_SHA3_384 : Z := 104.
Definition KECCAK_RATE_SHA3_512 : Z := 72.

Definition KECCAK_DELIM_KECCAK : Z := 0x01.
Definition KECCAK_DELIM_SHA3 : Z := 0x06.
Definition KECCAK_DELIM_SHAKE : Z := 0x1F.

Definition sha3_hash_generic (fuel : nat) (p : option (list Z)) (inlen : Z)
    (outlen rate delim : Z) : outcome (list Z) :=
  let ctx := keccak1600_init rate delim in
  ctx ← keccak1600_absorb fuel ctx p inlen;
  ctx ← keccak1600_finalize ctx;
  '(out, _) ← keccak1600_squeeze fuel ctx outlen;
  Done out.

Definition keccak_256 (fuel : nat) (p : option (list Z)) (inlen : Z) :=
  sha3_hash_generic fuel p inlen 32 KECCAK_RATE_SHA3_256 KECCAK_DELIM_KECCAK.
Definition sha3_256 (fuel : nat) (p : option (list Z)) (inlen : Z) :=
  sha3_hash_generic fuel p inlen 32 KECCAK_RATE_SHA3_256 KECCAK_DELIM_SHA3.
Definition sha3_224 (fuel : nat) (p : option (list Z)) (inlen : Z) :=
  sha3_hash_generic fuel p inlen 28 KECCAK_RATE_SHA3_224 KECCAK_DELIM_SHA3.
Definition sha3_384 (fuel : nat) (p : option (list Z)) (inlen : Z) :=
  sha3_hash_generic fuel p inlen 48 KECCAK_RATE_SHA3_384 KECCAK_DELIM_SHA3.
Definition sha3_512 (fuel : nat) (p : option (list Z)) (inlen : Z) :=
  sha3_hash_generic fuel p inlen 64 KECCAK_RATE_SHA3_512 KECCAK_DELIM_SHA3.

(** ** The byte loops as list functions *)

Definition xor_byte_at (s : list Z) (i v : Z) : list Z :=
  set_byte_at s i (Z.lxor (byte_at s i) v).

(** The effect of the XOR loop on a whole byte list. *)
Fixpoint xor_list (st : list Z) (pos : Z) (l : list Z) : list Z :=
  match l with
  | [] => st
  | b :: l' => xor_list (xor_byte_at st pos b) (pos + 1) l'
  end.

(** The [n] bytes of the state from index [i] on. *)
Fixpoint bytes_from (st : list Z) (i : Z) (n : nat) : list Z :=
  match n with
  | O => []
  | S n' => byte_at st i :: bytes_from st (i + 1) n'
  end.

(** ** Well-formed states and contexts *)

(** A lane is a 64-bit value. *)
Definition lane_ok (w : Z) : Prop := 0 ≤ w < U64_MOD.

(** A state is 25 lanes. *)
Definition state_ok (s : list Z) : Prop :=
  length s = 25%nat ∧ Forall lane_ok s.

(** A context between two absorb calls: 25 lanes, a rate inside the
    state, and the cursor inside the rate window. *)
Definition ctx_ok (c : keccak1600_ctx) : Prop :=
  length (ctx_a c) = 25%nat ∧ 1 ≤ ctx_rate c ≤ 200 ∧
  0 ≤ ctx_pos c < ctx_rate c.

(** A context between two squeeze calls: the cursor may rest on the end
    of the rate window. *)
Definition ctx_sq_ok (c : keccak1600_ctx) : Prop :=
  length (ctx_a c) = 25%nat ∧ 1 ≤ ctx_rate c ≤ 200 ∧
  0 ≤ ctx_pos c ≤ ctx_rate c.

(** ** The sponge, one byte at a time *)

Section SpongeModel.
Variable permute : list Z → list Z.

(** XOR one byte at the cursor; permute when the window is full. *)
Definition absorb1 (rate : Z) (sp : list Z * Z) (b : Z) : list Z * Z :=
  let st := xor_byte_at sp.1 sp.2 b in
  if sp.2 + 1 =? rate then (permute st, 0) else (st, sp.2 + 1).

Definition absorb_bytes (rate : Z) (sp : list Z * Z) (l : list Z)
    : list Z * Z :=
  foldl (absorb1 rate) sp l.

Definition absorb_run (c : keccak1600_ctx) (l : list Z) : keccak1600_ctx :=
  let sp := absorb_bytes (ctx_rate c) (ctx_a c, ctx_pos c) l in
  {| ctx_a := sp.1; ctx_rate := ctx_rate c; ctx_pos := sp.2;
     ctx_delim := ctx_delim c |}.

Definition finalize_run (c : keccak1600_ctx) : keccak1600_ctx :=
  {| ctx_a := permute (xor_byte_at (xor_byte_at (ctx_a c) (ctx_pos c) (ctx_delim c))
                                   (ctx_rate c - 1) 0x80);
     ctx_rate := ctx_rate c; ctx_pos := 0; ctx_delim := ctx_delim c |}.

(** Permute first when the window is used up, then emit the byte at the
    cursor. *)
Definition squeeze1 (rate : Z) (sp : list Z * Z) : Z * (list Z * Z) :=
  let sp' := if sp.2 =? rate then (permute sp.1, 0) else sp in
  (byte_at sp'.1 sp'.2, (sp'.1, sp'.2 + 1)).

Fixpoint squeeze_bytes (rate : Z) (n : nat) (sp : list Z * Z)
    : list Z * (list Z * Z) :=
  match n with
  | O => ([], sp)
  | S n' =>
      let r := squeeze1 rate sp in
      let r' := squeeze_bytes rate n' r.2 in
      (r.1 :: r'.1, r'.2)
  end.

Definition squeeze_run (c : keccak1600_ctx) (n : nat)
    : list Z * keccak1600_ctx :=
  let r := squeeze_bytes (ctx_rate c) n (ctx_a c, ctx_pos c) in
  (r.1, {| ctx_a := r.2.1; ctx_rate := ctx_rate c; ctx_pos := r.2.2;
           ctx_delim := ctx_delim c |}).
End SpongeModel.

(** Callers used to state the streaming properties: one absorb call per
    chunk, each chunk in a buffer of its own. *)
Fixpoint absorb_chunks (fuel : nat) (c : keccak1600_ctx)
    (chunks : list (list Z)) : outcome keccak1600_ctx :=
  match chunks with
  | [] => Done c
  | ch :: rest =>
      c' ← keccak1600_absorb fuel c (Some ch) (Z.of_nat (length ch));
      absorb_chunks fuel c' rest
  end.

(** The parameter table of the specification (section 4.3) and the
    composition it prescribes for a one-shot helper. *)
Record ParameterSet : Type := {
  ps_rate : Z;
  ps_delim : Z;
  ps_outlen : Z
}.

Definition Keccak256_params := {| ps_rate := 136; ps_delim := 0x01; ps_outlen := 32 |}.
Definition SHA3_224_params := {| ps_rate := 144; ps_delim := 0x06; ps_outlen := 28 |}.
Definition SHA3_256_params := {| ps_rate := 136; ps_delim := 0x06; ps_outlen := 32 |}.
Definition SHA3_384_params := {| ps_rate := 104; ps_delim := 0x06; ps_outlen := 48 |}.
Definition SHA3_512_params := {| ps_rate := 72; ps_delim := 0x06; ps_outlen := 64 |}.

Definition one_shot_spec (ps : ParameterSet) (fuel : nat)
    (p : option (list Z)) (inlen : Z) : outcome (list Z) :=
  c0 ← Done (keccak1600_init (ps_rate ps) (ps_delim ps));
  c1 ← keccak1600_absorb fuel c0 p inlen;
  c2 ← keccak1600_finalize c1;
  r ← keccak1600_squeeze fuel c2 (ps_outlen ps);
  Done r.1.

(** ** The standard permutation, for comparison

    Keccak-f[1600] written from the specification's description of the
    four steps and from FIPS 202 (sections 3.2.1 to 3.2.5), as a loop over
    rounds on a state indexed by [(x, y)]: lane [(x, y)] is element
    [5 * y + x].  The rotation offsets and round constants are not copied
    from a table: they are generated by the standard's own rules. *)
Module Fips202.
Definition lane (s : list Z) (x y : nat) : Z := s !!! (5 * y + x)%nat.

Definition build (f : nat → nat → Z) : list Z :=
  (fun i => f (i mod 5)%nat (i / 5)%nat) <$> seq 0 25.

(** Rotation of a 64-bit word towards the high bits. *)
Definition rotl (w : Z) (n : nat) : Z :=
  let k := Z.of_nat (n mod 64) in
  (w * 2 ^ k) mod 2 ^ 64 + w / 2 ^ (64 - k).

Definition column_parity (s : list Z) (x : nat) : Z :=
  foldl Z.lxor 0 (lane s x <$> seq 0 5).

Definition theta (s : list Z) : list Z :=
  build (fun x y =>
    Z.lxor (lane s x y)
      (Z.lxor (column_parity s ((x + 4) mod 5))
              (rotl (column_parity s ((x + 1) mod 5)) 1))).

(** Offsets of rho: starting from [(1, 0)], step [t] assigns
    [(t + 1)(t + 2) / 2] and moves to [(y, 2x + 3y)]. *)
Fixpoint rho_walk (steps t x y : nat) : list (nat * nat * nat) :=
  match steps with
  | O => []
  | S steps' =>
      (x, y, ((t + 1) * (t + 2) / 2) mod 64)%nat ::
      rho_walk steps' (S t) y ((2 * x + 3 * y) mod 5)%nat
  end.

Definition rho_offset (x y : nat) : nat :=
  match filter (fun e => e.1 = (x, y)) (rho_walk 24 0 1 0) with
  | e :: _ => e.2
  | [] => 0%nat
  end.

Definition rho (s : list Z) : list Z :=
  build (fun x y => rotl (lane s x y) (rho_offset x y)).

(** [A'[x, y] = A[(x + 3y) mod 5, x]]. *)
Definition pi (s : list Z) : list Z :=
  build (fun x y => lane s ((x + 3 * y) mod 5) x).

Definition chi (s : list Z) : list Z :=
  build (fun x y =>
    Z.lxor (lane s x y)
      (Z.land (Z.lxor (lane s ((x + 1) mod 5) y) (2 ^ 64 - 1))
              (lane s ((x + 2) mod 5) y))).

(** The round-constant bit [rc(t)] from the 8-bit LFSR
    [x^8 + x^6 + x^5 + x^4 + 1]. *)
Fixpoint lfsr (n : nat) (r : Z) : Z :=
  match n with
  | O => r
  | S n' =>
      let r := 2 * r in
      lfsr n' (if Z.testbit r 8 then Z.lxor r 0x171 else r)
  end.

Definition rc (t : nat) : bool := Z.odd (lfsr (t mod 255) 1).

Definition RC (ir : nat) : Z :=
  foldr (fun j acc =>
           if rc (j + 7 * ir) then Z.lor acc (2 ^ (2 ^ Z.of_nat j - 1)) else acc)
        0 (seq 0 7).

Definition iota_rc (c : Z) (s : list Z) : list Z :=
  build (fun x y =>
    if decide ((x, y) = (0, 0))%nat then Z.lxor (lane s x y) c
    else lane s x y).

Definition iota (ir : nat) (s : list Z) : list Z := iota_rc (RC ir) s.

Definition round (s : list Z) (ir : nat) : list Z :=
  iota ir (chi (pi (rho (theta s)))).

Definition keccak_f (s : list Z) : list Z := foldl round s (seq 0 24).

(** The 25 offsets as a table in the layout of the state. *)
Definition rho_offsets : list nat :=
  (fun i => rho_offset (i mod 5) (i / 5)) <$> seq 0 25.
End Fips202.

(** The rho/pi block of [KECCAK_ROUND] read as a step on the indexed
    state: lane [(x, y)] receives lane [(y, x)] rotated by the offset of
    [(x, y)]. *)
Definition rho_pi_as_coded (s : list Z) : list Z :=
  Fips202.build (fun x y =>
    Fips202.rotl (Fips202.lane s y x) (Fips202.rho_offset x y)).

Definition round_as_coded (s : list Z) (ir : nat) : list Z :=
  Fips202.iota ir (Fips202.chi (rho_pi_as_coded (Fips202.theta s))).

(** One round of the code on the state array, and the same round as the
    four steps on the indexed state. *)
Definition coded_round (rc : Z) (s : list Z) : list Z :=
  store_lanes (KECCAK_ROUND rc (load_lanes s)).

Definition steps_round (rc : Z) (s : list Z) : list Z :=
  Fips202.iota_rc rc (Fips202.chi (rho_pi_as_coded (Fips202.theta s))).

(** A state with 25 different lanes. *)
Definition counting_state : list Z := (fun i => Z.of_nat i + 1) <$> seq 0 25.

(** ** Digests as hexadecimal text *)

Definition hex_digit (n : Z) : ascii :=
  match n with
  | 0 => "0" | 1 => "1" | 2 => "2" | 3 => "3" | 4 => "4" | 5 => "5"
  | 6 => "6" | 7 => "7" | 8 => "8" | 9 => "9" | 10 => "a" | 11 => "b"
  | 12 => "c" | 13 => "d" | 14 => "e" | _ => "f"
  end%char.

Fixpoint hex_of_bytes (l : list Z) : string :=
  match l with
  | [] => EmptyString
  | b :: l' => String (hex_digit (b / 16)) (String (hex_digit (b mod 16)) (hex_of_bytes l'))
  end.

(** The two digests as the specification prints them. *)
Definition spec_keccak256_empty_hex : string :=
  "c5d2460186f7233c927e7db2dcc703c0e500b653ca82273b7bfad8045d85a47".
Definition spec_sha3_256_empty_hex : string :=
  "a7ffc6f8bf1ed76651c14756a061d662f580ff4de43b49fa82d80a4b80f8434".

(** The one-shot composition over an arbitrary permutation. *)
Definition sponge_hash (permute : list Z → list Z) (fuel : nat)
    (p : option (list Z)) (inlen outlen rate delim : Z) : outcome (list Z) :=
  ctx ← sponge_absorb permute fuel (keccak1600_init rate delim) p inlen;
  ctx ← sponge_finalize permute ctx;
  r ← sponge_squeeze permute fuel ctx outlen;
  Done r.1.

(** The bytes a hexadecimal text denotes, two digits to a byte. *)
Definition hex_value (a : ascii) : Z :=
  match a with
  | "0" => 0 | "1" => 1 | "2" => 2 | "3" => 3 | "4" => 4 | "5" => 5
  | "6" => 6 | "7" => 7 | "8" => 8 | "9" => 9 | "a" => 10 | "b" => 11
  | "c" => 12 | "d" => 13 | "e" => 14 | _ => 15
  end%char.

Fixpoint bytes_of_hex (s : string) : list Z :=
  match s with
  | String a (String b s') => (16 * hex_value a + hex_value b) :: bytes_of_hex s'
  | _ => []
  end.

(** The digest of the empty input under a parameter set, with the
    standard permutation as the callee of the sponge. *)
Definition standard_empty_digest (ps : ParameterSet) : outcome (list Z) :=
  sponge_hash Fips202.keccak_f 65 (Some []) 0
    (ps_outlen ps) (ps_rate ps) (ps_delim ps).

(** ** Bytes and padding *)

(** A byte value. *)
Definition byte_ok (b : Z) : Prop := 0 ≤ b < 256.

(** The bytes that complete the current block under pad10*1 with the
    domain separator in the first padding byte. *)
Definition padding (c : keccak1600_ctx) : list Z :=
  let gap := ctx_rate c - ctx_pos c in
  if gap =? 1 then [Z.lxor (ctx_delim c) 0x80]
  else ctx_delim c :: replicate (Z.to_nat (gap - 2)) 0 ++ [0x80].

(** * Properties *)

(** ** Bytes inside a lane *)

Lemma testbit_255 (n : Z) : 0 ≤ n → Z.testbit 255 n = (n <? 8).
Proof.
  intros Hn. change 255 with (Z.ones 8).
  apply Z.testbit_ones_nonneg; lia.
Qed.

Lemma lane_get_byte_range (w k : Z) : 0 ≤ lane_get_byte w k < 256.
Proof.
  unfold lane_get_byte. change 255 with (Z.ones 8).
  rewrite Z.land_ones by lia. apply Z.mod_pos_bound. lia.
Qed.

Lemma land_255_small (b : Z) : 0 ≤ b < 256 → Z.land b 255 = b.
Proof.
  intros Hb. change 255 with (Z.ones 8).
  rewrite Z.land_ones by lia. apply Z.mod_small. lia.
Qed.

Lemma lane_get_set_byte (w k k' b : Z) :
  0 ≤ k < 8 → 0 ≤ k' < 8 →
  lane_get_byte (lane_set_byte w k b) k' =
  if k =? k' then Z.land b 255 else lane_get_byte w k'.
Proof.
  intros Hk Hk'. unfold lane_get_byte, lane_set_byte.
  destruct (Z.eqb_spec k k') as [->|Hne]; apply Z.bits_inj'; intros n Hn;
    rewrite !Z.land_spec, Z.shiftr_spec, Z.lor_spec, Z.ldiff_spec,
      !Z.shiftl_spec, ?Z.land_spec, ?Z.shiftr_spec by lia.
  - replace (n + 8 * k' - 8 * k') with n by lia.
    rewrite !(testbit_255 n) by lia.
    destruct (n <? 8); [|by rewrite !andb_false_r].
    by rewrite !andb_true_r, andb_false_r.
  - rewrite (testbit_255 n) by lia.
    destruct (Z.ltb_spec n 8) as [Hlt|Hge]; [|by rewrite !andb_false_r].
    rewrite !andb_true_r.
    destruct (Z.lt_ge_cases (n + 8 * k' - 8 * k) 0) as [Hneg|Hpos].
    + rewrite !(Z.testbit_neg_r _ (n + 8 * k' - 8 * k)) by lia.
      by rewrite andb_true_r, orb_false_r.
    + rewrite !(testbit_255 (n + 8 * k' - 8 * k)) by lia.
      replace (n + 8 * k' - 8 * k <? 8) with false by lia.
      by rewrite andb_false_r, andb_true_r, orb_false_r.
Qed.

Lemma lane_set_byte_range (w k b : Z) :
  0 ≤ k < 8 → 0 ≤ w < U64_MOD → 0 ≤ lane_set_byte w k b < U64_MOD.
Proof.
  intros Hk Hw. unfold lane_set_byte, U64_MOD in *.
  assert (Hlt : ∀ x, 0 ≤ x → (∀ n, 64 ≤ n → Z.testbit x n = false) → x < 2 ^ 64).
  { intros x Hx Hbits. destruct (Z.eq_dec x 0) as [->|Hx0]; [lia|].
    apply Z.log2_lt_pow2; [lia|].
    destruct (Z.lt_ge_cases (Z.log2 x) 64) as [|Hge]; [done|].
    specialize (Hbits (Z.log2 x) Hge).
    rewrite Z.bit_log2 in Hbits by lia. done. }
  assert (Hwb : ∀ n, 64 ≤ n → Z.testbit w n = false).
  { intros n Hn. apply Z.bits_above_log2; [lia|].
    destruct (Z.eq_dec w 0) as [->|Hw0]; [simpl; lia|].
    assert (Z.log2 w < 64) by (apply Z.log2_lt_pow2; lia). lia. }
  split.
  - apply Z.lor_nonneg. split.
    + apply Z.ldiff_nonneg. lia.
    + apply Z.shiftl_nonneg. apply Z.land_nonneg. lia.
  - apply Hlt.
    + apply Z.lor_nonneg. split.
      * apply Z.ldiff_nonneg. lia.
      * apply Z.shiftl_nonneg. apply Z.land_nonneg. lia.
    + intros n Hn.
      rewrite Z.lor_spec, Z.ldiff_spec, !Z.shiftl_spec, Z.land_spec by lia.
      rewrite Hwb by lia. rewrite !(testbit_255 (n - 8 * k)) by lia.
      replace (n - 8 * k <? 8) with false by lia.
      by rewrite andb_false_r.
Qed.

(** ** The byte view of a 25-lane state *)

Lemma in_state_true (i : Z) : 0 ≤ i < 200 → in_state i = true.
Proof. unfold in_state. lia. Qed.

Lemma in_state_false (i : Z) : ¬ (0 ≤ i < 200) → in_state i = false.
Proof. unfold in_state. lia. Qed.

Lemma length_set_byte_at (s : list Z) (i b : Z) :
  length (set_byte_at s i b) = length s.
Proof. apply length_insert. Qed.

Lemma length_xor_byte_at (s : list Z) (i v : Z) :
  length (xor_byte_at s i v) = length s.
Proof. apply length_set_byte_at. Qed.

Lemma byte_at_range (s : list Z) (i : Z) : 0 ≤ byte_at s i < 256.
Proof. apply lane_get_byte_range. Qed.

Lemma byte_at_set_byte_at (s : list Z) (i j b : Z) :
  length s = 25%nat → 0 ≤ i < 200 → 0 ≤ j →
  byte_at (set_byte_at s i b) j =
  if i =? j then Z.land b 255 else byte_at s j.
Proof.
  intros Hlen Hi Hj. unfold byte_at, set_byte_at.
  pose proof (Z.div_mod i 8 ltac:(lia)) as Hdi.
  pose proof (Z.div_mod j 8 ltac:(lia)) as Hdj.
  pose proof (Z.mod_pos_bound i 8 ltac:(lia)) as Hmi.
  pose proof (Z.mod_pos_bound j 8 ltac:(lia)) as Hmj.
  destruct (decide (i / 8 = j / 8)) as [Heq|Hne].
  - rewrite <- Heq, list_lookup_total_insert_eq by lia.
    rewrite lane_get_set_byte by lia.
    destruct (Z.eqb_spec (i mod 8) (j mod 8)), (Z.eqb_spec i j);
      first [done | lia | congruence].
  - rewrite list_lookup_total_insert_ne by lia.
    destruct (Z.eqb_spec i j) as [->|]; [lia|done].
Qed.

Lemma land_255_lxor (x y : Z) :
  0 ≤ x < 256 → 0 ≤ y < 256 → Z.land (Z.lxor x y) 255 = Z.lxor x y.
Proof.
  intros Hx Hy. rewrite <- (land_255_small x) at 2 by done.
  rewrite <- (land_255_small y) at 2 by done.
  apply Z.bits_inj'; intros n Hn.
  rewrite Z.land_spec, !Z.lxor_spec, !Z.land_spec.
  by destruct (Z.testbit x n), (Z.testbit y n), (Z.testbit 255 n).
Qed.

Lemma byte_at_xor_byte_at (s : list Z) (i j v : Z) :
  length s = 25%nat → 0 ≤ i < 200 → 0 ≤ j → 0 ≤ v < 256 →
  byte_at (xor_byte_at s i v) j =
  if i =? j then Z.lxor (byte_at s j) v else byte_at s j.
Proof.
  intros Hlen Hi Hj Hv. unfold xor_byte_at.
  rewrite byte_at_set_byte_at by done.
  destruct (Z.eqb_spec i j) as [->|]; [|done].
  apply land_255_lxor; [apply byte_at_range|done].
Qed.

Lemma st_get_ok (s : list Z) (i : Z) :
  0 ≤ i < 200 → st_get s i = Done (byte_at s i).
Proof. intros Hi. unfold st_get. by rewrite in_state_true. Qed.

Lemma st_xor_ok (s : list Z) (i v : Z) :
  0 ≤ i < 200 → st_xor s i v = Done (xor_byte_at s i v).
Proof.
  intros Hi. unfold st_xor, st_get, st_set. by rewrite in_state_true.
Qed.

Lemma size_add_small (x y : Z) : 0 ≤ x + y < SIZE_MOD → size_add x y = x + y.
Proof. intros H. unfold size_add. by apply Z.mod_small. Qed.

Lemma size_sub_small (x y : Z) : 0 ≤ x - y < SIZE_MOD → size_sub x y = x - y.
Proof. intros H. unfold size_sub. by apply Z.mod_small. Qed.

Lemma SIZE_MOD_big : 200 < SIZE_MOD.
Proof. done. Qed.

(** ** The byte loops as list functions *)

Lemma length_xor_list (l : list Z) (st : list Z) (pos : Z) :
  length (xor_list st pos l) = length st.
Proof.
  revert st pos. induction l as [|b l IH]; intros st pos; simpl; [done|].
  by rewrite IH, length_xor_byte_at.
Qed.

Lemma xor_list_app (l1 l2 : list Z) (st : list Z) (pos : Z) :
  xor_list st pos (l1 ++ l2) =
  xor_list (xor_list st pos l1) (pos + Z.of_nat (length l1)) l2.
Proof.
  revert st pos. induction l1 as [|b l1 IH]; intros st pos; simpl.
  - by rewrite Z.add_0_r.
  - rewrite IH. f_equal. lia.
Qed.

Lemma length_bytes_from (n : nat) (st : list Z) (i : Z) :
  length (bytes_from st i n) = n.
Proof. revert i. induction n as [|n IH]; intros i; simpl; [done|]. by rewrite IH. Qed.

Lemma bytes_from_app (n m : nat) (st : list Z) (i : Z) :
  bytes_from st i (n + m) = bytes_from st i n ++ bytes_from st (i + Z.of_nat n) m.
Proof.
  revert i. induction n as [|n IH]; intros i; simpl.
  - by rewrite Z.add_0_r.
  - rewrite IH. do 3 f_equal. lia.
Qed.

Lemma xor_loop_ok (buf : list Z) (pos off : Z) (n : nat) (i : Z) (st : list Z) :
  0 ≤ pos → 0 ≤ off → 0 ≤ i →
  pos + i + Z.of_nat n ≤ 200 →
  off + i + Z.of_nat n ≤ Z.of_nat (length buf) →
  xor_loop n i st pos (Some buf) off =
  Done (xor_list st (pos + i) (take n (drop (Z.to_nat (off + i)) buf))).
Proof.
  intros Hpos Hoff. revert i st.
  induction n as [|n IH]; intros i st Hi Hst Hbuf; [done|].
  destruct (lookup_lt_is_Some_2 buf (Z.to_nat (off + i)) ltac:(lia)) as [b Hb].
  cbn [xor_loop in_get].
  replace (0 <=? off + i) with true by lia. rewrite Hb. cbn.
  pose proof SIZE_MOD_big.
  rewrite size_add_small, st_xor_ok by lia. cbn.
  rewrite IH by lia.
  rewrite (drop_S _ _ _ Hb). cbn [take xor_list].
  replace (Z.to_nat (off + (i + 1))) with (S (Z.to_nat (off + i))) by lia.
  do 2 f_equal. lia.
Qed.

Lemma xor_in_ok (buf : list Z) (st : list Z) (pos off t : Z) :
  0 ≤ pos → 0 ≤ off → 0 ≤ t → pos + t ≤ 200 →
  off + t ≤ Z.of_nat (length buf) →
  xor_in st pos (Some buf) off t =
  Done (xor_list st pos (take (Z.to_nat t) (drop (Z.to_nat off) buf))).
Proof.
  intros. unfold xor_in. rewrite xor_loop_ok by lia.
  by rewrite !Z.add_0_r.
Qed.

Lemma xor_in_zero (st : list Z) (pos : Z) (p : option (list Z)) (off t : Z) :
  t ≤ 0 → xor_in st pos p off t = Done st.
Proof.
  intros Ht. unfold xor_in. by replace (Z.to_nat t) with 0%nat by lia.
Qed.

Lemma read_loop_ok (n : nat) (st : list Z) (i : Z) :
  0 ≤ i → i + Z.of_nat n ≤ 200 →
  read_loop n st i = Done (bytes_from st i n).
Proof.
  revert i. induction n as [|n IH]; intros i Hi Hn; [done|].
  cbn [read_loop bytes_from]. rewrite st_get_ok by lia. cbn.
  by rewrite IH by lia.
Qed.

Lemma st_read_ok (st : list Z) (pos t : Z) :
  0 ≤ pos → 0 ≤ t → pos + t ≤ 200 →
  st_read st pos t = Done (bytes_from st pos (Z.to_nat t)).
Proof. intros. unfold st_read. apply read_loop_ok; lia. Qed.

(** ** Absorbing, one byte at a time *)

Section SpongeFacts.
Variable permute : list Z → list Z.
Hypothesis permute_length :
  ∀ s, length s = 25%nat → length (permute s) = 25%nat.

Local Abbreviation absorb1 := (absorb1 permute).
Local Abbreviation absorb_bytes := (absorb_bytes permute).
Local Abbreviation absorb_run := (absorb_run permute).
Local Abbreviation finalize_run := (finalize_run permute).
Local Abbreviation squeeze1 := (squeeze1 permute).
Local Abbreviation squeeze_bytes := (squeeze_bytes permute).
Local Abbreviation squeeze_run := (squeeze_run permute).

Lemma absorb_bytes_app rate sp l1 l2 :
  absorb_bytes rate sp (l1 ++ l2) =
  absorb_bytes rate (absorb_bytes rate sp l1) l2.
Proof. apply foldl_app. Qed.

Lemma absorb_bytes_cons rate sp b l :
  absorb_bytes rate sp (b :: l) = absorb_bytes rate (absorb1 rate sp b) l.
Proof. done. Qed.

Lemma absorb_bytes_partial rate l st pos :
  pos + Z.of_nat (length l) < rate →
  absorb_bytes rate (st, pos) l = (xor_list st pos l, pos + Z.of_nat (length l)).
Proof.
  revert st pos. induction l as [|b l IH]; intros st pos Hlt.
  - cbn. by rewrite Z.add_0_r.
  - cbn [length] in Hlt. rewrite absorb_bytes_cons. unfold absorb1.
    cbn [fst snd xor_list length].
    replace (pos + 1 =? rate) with false by lia.
    rewrite IH by lia. f_equal. lia.
Qed.

Lemma absorb_bytes_fill rate l st pos :
  l ≠ [] → pos + Z.of_nat (length l) = rate →
  absorb_bytes rate (st, pos) l = (permute (xor_list st pos l), 0).
Proof.
  revert st pos. induction l as [|b l IH]; intros st pos Hne Hlen; [done|].
  cbn [length] in Hlen. rewrite absorb_bytes_cons. unfold absorb1.
  cbn [fst snd xor_list].
  destruct l as [|b' l].
  - cbn in *. by replace (pos + 1 =? rate) with true by lia.
  - cbn [length] in Hlen.
    replace (pos + 1 =? rate) with false by lia.
    apply IH; [done|]. cbn [length]. lia.
Qed.

Lemma absorb1_ok rate sp b :
  length sp.1 = 25%nat → 0 ≤ sp.2 < rate →
  length (absorb1 rate sp b).1 = 25%nat ∧ 0 ≤ (absorb1 rate sp b).2 < rate.
Proof.
  intros Hlen Hpos. unfold absorb1.
  destruct (Z.eqb_spec (sp.2 + 1) rate); cbn.
  - split; [|lia]. apply permute_length. by rewrite length_xor_byte_at.
  - split; [|lia]. by rewrite length_xor_byte_at.
Qed.

Lemma absorb_bytes_ok rate l sp :
  length sp.1 = 25%nat → 0 ≤ sp.2 < rate →
  length (absorb_bytes rate sp l).1 = 25%nat ∧
  0 ≤ (absorb_bytes rate sp l).2 < rate.
Proof.
  revert sp. induction l as [|b l IH]; intros sp Hlen Hpos; [done|].
  rewrite absorb_bytes_cons.
  destruct (absorb1_ok rate sp b Hlen Hpos) as [H1 H2].
  by apply IH.
Qed.

Lemma absorb_run_ok c l : ctx_ok c → ctx_ok (absorb_run c l).
Proof.
  intros (Hlen & Hrate & Hpos).
  destruct (absorb_bytes_ok (ctx_rate c) l (ctx_a c, ctx_pos c) Hlen Hpos).
  unfold ctx_ok, absorb_run; cbn. lia.
Qed.

Lemma absorb_run_app c l1 l2 :
  absorb_run c (l1 ++ l2) = absorb_run (absorb_run c l1) l2.
Proof.
  unfold absorb_run. cbn. rewrite absorb_bytes_app.
  by destruct (absorb_bytes _ _ l1).
Qed.

(** *** The three phases of [keccak1600_absorb] *)

Lemma absorb_head_ok buf st rate pos :
  length st = 25%nat → 1 ≤ rate ≤ 200 → 0 ≤ pos < rate →
  ∃ st' pos' off,
    absorb_head permute st rate pos (Some buf) (Z.of_nat (length buf)) =
      Done (st', pos', Z.of_nat off, Z.of_nat (length buf) - Z.of_nat off) ∧
    (off ≤ length buf)%nat ∧
    (pos' = 0 ∨ off = length buf) ∧
    absorb_bytes rate (st, pos) (take off buf) = (st', pos') ∧
    length st' = 25%nat ∧ 0 ≤ pos' < rate.
Proof.
  intros Hlen Hrate Hpos. unfold absorb_head.
  pose proof SIZE_MOD_big.
  destruct (Z.eqb_spec pos 0) as [->|Hpos0].
  { exists st, 0, 0%nat. rewrite Z.sub_0_r. repeat split; auto; lia. }
  rewrite size_sub_small by lia.
  destruct (Z.gtb_spec (rate - pos) (Z.of_nat (length buf))) as [Hgt|Hle].
  - (* the input ends before the window is full *)
    exists (xor_list st pos buf), (pos + Z.of_nat (length buf)), (length buf).
    rewrite xor_in_ok by lia. cbn.
    rewrite Nat2Z.id, drop_0, !firstn_all.
    rewrite size_add_small by lia.
    replace (pos + Z.of_nat (length buf) =? rate) with false by lia.
    repeat split; auto; try lia.
    + by apply absorb_bytes_partial; lia.
    + by rewrite length_xor_list.
  - (* the head of the input fills the window *)
    set (t := Z.to_nat (rate - pos)).
    exists (permute (xor_list st pos (take t buf))), 0, t.
    rewrite xor_in_ok by lia. cbn.
    rewrite drop_0. fold t.
    rewrite size_add_small by lia.
    replace (pos + (rate - pos) =? rate) with true by lia.
    replace (Z.of_nat t) with (rate - pos) by lia.
    repeat split; auto; try lia.
    + apply absorb_bytes_fill.
      * intros Hnil. apply (f_equal length) in Hnil.
        rewrite length_take in Hnil. cbn in Hnil. lia.
      * rewrite length_take. lia.
    + apply permute_length. by rewrite length_xor_list.
Qed.

Lemma absorb_blocks_ok buf rate fuel st off :
  length st = 25%nat → 1 ≤ rate ≤ 200 → (off ≤ length buf)%nat →
  Z.of_nat (length buf) - Z.of_nat off < Z.of_nat fuel →
  ∃ st' off',
    absorb_blocks permute fuel rate (Some buf)
        (st, Z.of_nat off, Z.of_nat (length buf) - Z.of_nat off) =
      Done (st', Z.of_nat off', Z.of_nat (length buf) - Z.of_nat off') ∧
    (off ≤ off' ≤ length buf)%nat ∧
    Z.of_nat (length buf) - Z.of_nat off' < rate ∧
    length st' = 25%nat ∧
    absorb_bytes rate (st, 0) (drop off buf) =
      absorb_bytes rate (st', 0) (drop off' buf) ∧
    (Z.of_nat (length buf) - Z.of_nat off < rate → st' = st ∧ off' = off).
Proof.
  intros Hlen Hrate. revert st off Hlen.
  induction fuel as [|fuel IH]; intros st off Hlen Hoff Hfuel; [lia|].
  cbn [absorb_blocks snd].
  destruct (Z.geb_spec (Z.of_nat (length buf) - Z.of_nat off) rate) as [Hge|Hlt].
  - cbn [absorb_block]. rewrite xor_in_ok by lia. cbn.
    rewrite Nat2Z.id.
    set (st1 := permute (xor_list st 0 (take (Z.to_nat rate) (drop off buf)))).
    replace (Z.of_nat off + rate) with (Z.of_nat (off + Z.to_nat rate)) by lia.
    replace (Z.of_nat (length buf) - Z.of_nat off - rate)
      with (Z.of_nat (length buf) - Z.of_nat (off + Z.to_nat rate)) by lia.
    destruct (IH st1 (off + Z.to_nat rate)%nat) as
      (st' & off' & Hrun & Hoff' & Hrem & Hlen' & Hcont & _); try lia.
    { apply permute_length. by rewrite length_xor_list. }
    exists st', off'. rewrite Hrun. repeat split; auto; try lia.
    rewrite <- Hcont, <- (take_drop (Z.to_nat rate) (drop off buf)) at 1.
    rewrite absorb_bytes_app, drop_drop. f_equal.
    apply absorb_bytes_fill.
    + intros Hnil. apply (f_equal length) in Hnil.
      rewrite length_take, length_drop in Hnil. cbn in Hnil. lia.
    + rewrite length_take, length_drop. lia.
  - exists st, off. repeat split; auto; lia.
Qed.

Lemma absorb_tail_ok buf rate st pos off :
  0 ≤ pos → rate ≤ 200 → (off ≤ length buf)%nat →
  pos + (Z.of_nat (length buf) - Z.of_nat off) < rate →
  absorb_tail st pos (Some buf) (Z.of_nat off)
      (Z.of_nat (length buf) - Z.of_nat off) =
    Done (absorb_bytes rate (st, pos) (drop off buf)).
Proof.
  intros Hpos Hrate Hoff Hlt. unfold absorb_tail.
  pose proof SIZE_MOD_big.
  destruct (Z.eqb_spec (Z.of_nat (length buf) - Z.of_nat off) 0) as [H0|Hn0].
  - by rewrite drop_ge by lia.
  - rewrite xor_in_ok by lia. cbn.
    rewrite Nat2Z.id, size_add_small by lia.
    rewrite take_ge by (rewrite length_drop; lia).
    rewrite absorb_bytes_partial by (rewrite length_drop; lia).
    rewrite length_drop. do 2 f_equal. lia.
Qed.

(** With enough fuel an absorb call on a buffer of [inlen] bytes returns,
    and its effect is that of absorbing the bytes one at a time. *)
Lemma sponge_absorb_ok fuel c buf :
  ctx_ok c → Z.of_nat (length buf) < Z.of_nat fuel →
  sponge_absorb permute fuel c (Some buf) (Z.of_nat (length buf)) =
    Done (absorb_run c buf).
Proof.
  intros (Hlen & Hrate & Hpos) Hfuel. unfold sponge_absorb.
  destruct (absorb_head_ok buf (ctx_a c) (ctx_rate c) (ctx_pos c))
    as (st1 & pos1 & off1 & Hrun1 & Hoff1 & Hcase & Hhead & Hlen1 & Hpos1);
    try done.
  rewrite Hrun1. cbn.
  destruct (absorb_blocks_ok buf (ctx_rate c) fuel st1 off1)
    as (st2 & off2 & Hrun2 & Hoff2 & Hrem & Hlen2 & Hcont & Hstay);
    try done; try lia.
  rewrite Hrun2. cbn.
  assert (Hall : absorb_bytes (ctx_rate c) (ctx_a c, ctx_pos c) buf =
                 absorb_bytes (ctx_rate c) (st1, pos1) (drop off1 buf)).
  { rewrite <- (take_drop off1 buf) at 1.
    by rewrite absorb_bytes_app, Hhead. }
  unfold absorb_run. rewrite Hall.
  destruct Hcase as [-> | ->].
  - rewrite (absorb_tail_ok buf (ctx_rate c)) by lia. cbn.
    rewrite Hcont.
    by destruct (absorb_bytes (ctx_rate c) (st2, 0) (drop off2 buf)).
  - destruct Hstay as [-> ->]; [lia|].
    rewrite (absorb_tail_ok buf (ctx_rate c)) by lia. cbn.
    by destruct (absorb_bytes (ctx_rate c) (st1, pos1) (drop (length buf) buf)).
Qed.

(** *** Finalization *)

Lemma sponge_finalize_ok c :
  ctx_ok c → sponge_finalize permute c = Done (finalize_run c).
Proof.
  intros (Hlen & Hrate & Hpos). unfold sponge_finalize.
  pose proof SIZE_MOD_big.
  rewrite st_xor_ok by lia. cbn.
  rewrite size_sub_small, st_xor_ok by lia. done.
Qed.

Lemma finalize_run_ok c : ctx_ok c → ctx_ok (finalize_run c).
Proof.
  intros (Hlen & Hrate & Hpos). unfold ctx_ok, finalize_run; cbn.
  split; [|lia]. apply permute_length. by rewrite !length_xor_byte_at.
Qed.

(** *** Squeezing, one byte at a time *)

Lemma ctx_ok_sq_ok c : ctx_ok c → ctx_sq_ok c.
Proof. unfold ctx_ok, ctx_sq_ok. lia. Qed.

Lemma squeeze_bytes_app rate n m sp :
  squeeze_bytes rate (n + m) sp =
  ((squeeze_bytes rate n sp).1 ++
     (squeeze_bytes rate m (squeeze_bytes rate n sp).2).1,
   (squeeze_bytes rate m (squeeze_bytes rate n sp).2).2).
Proof.
  revert sp. induction n as [|n IH]; intros sp; cbn.
  - by destruct (squeeze_bytes rate m sp).
  - by rewrite IH.
Qed.

Lemma length_squeeze_bytes rate n sp :
  length (squeeze_bytes rate n sp).1 = n.
Proof.
  revert sp. induction n as [|n IH]; intros sp; cbn; [done|].
  by rewrite IH.
Qed.

Lemma squeeze_bytes_window rate n st pos :
  pos + Z.of_nat n ≤ rate →
  squeeze_bytes rate n (st, pos) =
    (bytes_from st pos n, (st, pos + Z.of_nat n)).
Proof.
  revert pos. induction n as [|n IH]; intros pos Hle.
  - cbn. by rewrite Z.add_0_r.
  - cbn [squeeze_bytes bytes_from]. unfold squeeze1. cbn [fst snd].
    replace (pos =? rate) with false by lia. cbn [fst snd].
    rewrite IH by lia. cbn [fst snd]. do 2 f_equal. lia.
Qed.

Lemma squeeze_bytes_wrap rate n st :
  1 ≤ rate → (1 ≤ n)%nat →
  squeeze_bytes rate n (st, rate) = squeeze_bytes rate n (permute st, 0).
Proof.
  intros Hrate Hn. destruct n as [|n]; [lia|].
  cbn [squeeze_bytes]. unfold squeeze1. cbn [fst snd].
  rewrite Z.eqb_refl. by replace (0 =? rate) with false by lia.
Qed.

Lemma squeeze_bytes_ok rate n sp :
  1 ≤ rate → length sp.1 = 25%nat → 0 ≤ sp.2 ≤ rate →
  length (squeeze_bytes rate n sp).2.1 = 25%nat ∧
  0 ≤ (squeeze_bytes rate n sp).2.2 ≤ rate.
Proof.
  intros Hrate. revert sp.
  induction n as [|n IH]; intros [st pos] Hlen Hpos; [done|].
  cbn [squeeze_bytes fst snd]. apply IH; unfold squeeze1; cbn [fst snd] in *.
  - destruct (pos =? rate); cbn; [by apply permute_length|done].
  - destruct (Z.eqb_spec pos rate); cbn; lia.
Qed.

Lemma squeeze_chunk_ok rate st pos out outlen :
  length st = 25%nat → 1 ≤ rate ≤ 200 → 0 ≤ pos ≤ rate → 0 < outlen →
  ∃ t : nat,
    (1 ≤ t)%nat ∧ Z.of_nat t ≤ outlen ∧
    squeeze_chunk permute rate (st, pos, out, outlen) =
      Done ((squeeze_bytes rate t (st, pos)).2.1,
            (squeeze_bytes rate t (st, pos)).2.2,
            out ++ (squeeze_bytes rate t (st, pos)).1,
            outlen - Z.of_nat t).
Proof.
  intros Hlen Hrate Hpos Hout. unfold squeeze_chunk.
  pose proof SIZE_MOD_big.
  destruct (Z.eqb_spec pos rate) as [->|Hne].
  - rewrite size_sub_small by lia. rewrite Z.sub_0_r.
    set (t := if rate >? outlen then outlen else rate).
    assert (Ht : 1 ≤ t ≤ outlen ∧ t ≤ rate) by (unfold t; destruct (Z.gtb_spec rate outlen); lia).
    exists (Z.to_nat t). rewrite st_read_ok by lia. cbn.
    rewrite size_add_small by lia.
    rewrite squeeze_bytes_wrap, squeeze_bytes_window by lia. cbn.
    rewrite Z2Nat.id by lia. repeat split; lia.
  - rewrite size_sub_small by lia.
    set (t := if rate - pos >? outlen then outlen else rate - pos).
    assert (Ht : 1 ≤ t ≤ outlen ∧ t ≤ rate - pos)
      by (unfold t; destruct (Z.gtb_spec (rate - pos) outlen); lia).
    exists (Z.to_nat t). rewrite st_read_ok by lia. cbn.
    rewrite size_add_small by lia.
    rewrite squeeze_bytes_window by lia. cbn.
    rewrite Z2Nat.id by lia. repeat split; lia.
Qed.

Lemma squeeze_loop_ok rate fuel st pos out (n : nat) :
  length st = 25%nat → 1 ≤ rate ≤ 200 → 0 ≤ pos ≤ rate →
  (n < fuel)%nat →
  squeeze_loop permute fuel rate (st, pos, out, Z.of_nat n) =
    Done ((squeeze_bytes rate n (st, pos)).2.1,
          (squeeze_bytes rate n (st, pos)).2.2,
          out ++ (squeeze_bytes rate n (st, pos)).1, 0).
Proof.
  intros Hlen Hrate. revert st pos out n Hlen.
  induction fuel as [|fuel IH]; intros st pos out n Hlen Hpos Hfuel; [lia|].
  cbn [squeeze_loop snd].
  destruct (Z.eqb_spec (Z.of_nat n) 0) as [H0|Hn0].
  - replace n with 0%nat by lia. cbn. by rewrite app_nil_r.
  - destruct (squeeze_chunk_ok rate st pos out (Z.of_nat n))
      as (t & Ht1 & Ht2 & Hrun); try done; try lia.
    rewrite Hrun. cbn.
    destruct (squeeze_bytes_ok rate t (st, pos)) as [Hlen' Hpos'];
      try done; try lia.
    replace (Z.of_nat n - Z.of_nat t) with (Z.of_nat (n - t)) by lia.
    rewrite <- surjective_pairing in *.
    destruct (squeeze_bytes rate t (st, pos)) as [o1 [st1 pos1]] eqn:E1.
    cbn [fst snd] in *.
    rewrite IH by (done || lia).
    pose proof (squeeze_bytes_app rate t (n - t) (st, pos)) as Happ.
    replace (t + (n - t))%nat with n in Happ by lia.
    rewrite Happ, E1. cbn [fst snd].
    by rewrite app_assoc.
Qed.

Lemma sponge_squeeze_ok fuel c (n : nat) :
  ctx_sq_ok c → (n < fuel)%nat →
  sponge_squeeze permute fuel c (Z.of_nat n) = Done (squeeze_run c n).
Proof.
  intros (Hlen & Hrate & Hpos) Hfuel. unfold sponge_squeeze.
  by rewrite squeeze_loop_ok.
Qed.

Lemma squeeze_run_ok c n : ctx_sq_ok c → ctx_sq_ok (squeeze_run c n).2.
Proof.
  intros (Hlen & Hrate & Hpos).
  destruct (squeeze_bytes_ok (ctx_rate c) n (ctx_a c, ctx_pos c))
    as [Hlen' Hpos']; [lia|done|done|].
  unfold ctx_sq_ok, squeeze_run; cbn. lia.
Qed.

Lemma squeeze_run_app c n m :
  squeeze_run c (n + m) =
  ((squeeze_run c n).1 ++ (squeeze_run (squeeze_run c n).2 m).1,
   (squeeze_run (squeeze_run c n).2 m).2).
Proof.
  unfold squeeze_run. cbn. rewrite squeeze_bytes_app.
  by rewrite <- !surjective_pairing.
Qed.

Lemma length_squeeze_run c n : length (squeeze_run c n).1 = n.
Proof. apply length_squeeze_bytes. Qed.
End SpongeFacts.

(** ** Facts about the permutation used as a callee *)

Lemma keccakf1600_length (s : list Z) : length (keccakf1600 s) = 25%nat.
Proof. unfold keccakf1600. by destruct (keccak_rounds (load_lanes s)). Qed.

Lemma keccakf1600_length' (s : list Z) :
  length s = 25%nat → length (keccakf1600 s) = 25%nat.
Proof. intros _. apply keccakf1600_length. Qed.

Lemma keccak1600_init_ok (rate delim : Z) :
  1 ≤ rate ≤ 200 → ctx_ok (keccak1600_init rate delim).
Proof. intros Hrate. unfold ctx_ok, keccak1600_init; cbn. lia. Qed.

(** ** Termination *)

Section Termination.
Variable permute : list Z → list Z.

Lemma in_get_fuel p i : in_get p i ≠ OutOfFuel.
Proof.
  unfold in_get. destruct p as [buf|]; [|done].
  destruct (0 <=? i); [|done]. by destruct (buf !! Z.to_nat i).
Qed.

Lemma st_xor_fuel st i v : st_xor st i v ≠ OutOfFuel.
Proof. unfold st_xor, st_get, st_set. by destruct (in_state i). Qed.

Lemma xor_loop_fuel n i st pos p off : xor_loop n i st pos p off ≠ OutOfFuel.
Proof.
  revert i st. induction n as [|n IH]; intros i st; [done|].
  cbn [xor_loop]. pose proof (in_get_fuel p (off + i)).
  destruct (in_get p (off + i)) as [v| |]; [|done..]. cbn.
  pose proof (st_xor_fuel st (size_add pos i) v).
  destruct (st_xor st (size_add pos i) v) as [st'| |]; [|done..]. cbn.
  apply IH.
Qed.

Lemma xor_in_fuel st pos p off t : xor_in st pos p off t ≠ OutOfFuel.
Proof. apply xor_loop_fuel. Qed.

Lemma read_loop_fuel n st i : read_loop n st i ≠ OutOfFuel.
Proof.
  revert i. induction n as [|n IH]; intros i; [done|].
  cbn [read_loop]. unfold st_get. destruct (in_state i); [|done]. cbn.
  specialize (IH (i + 1)). by destruct (read_loop n st (i + 1)).
Qed.

(** Each pass through [while (inlen >= rate)] consumes [rate] bytes. *)
Lemma absorb_block_decreases rate p st off inlen st' off' inlen' :
  1 ≤ rate → rate ≤ inlen →
  absorb_block permute rate p (st, off, inlen) = Done (st', off', inlen') →
  0 ≤ inlen' < inlen.
Proof.
  intros Hrate Hge. unfold absorb_block.
  destruct (xor_in st 0 p off rate); cbn; [|done..].
  intros [= _ _ <-]. lia.
Qed.

Lemma absorb_blocks_fuel rate p fuel st off inlen :
  1 ≤ rate → inlen < Z.of_nat fuel →
  absorb_blocks permute fuel rate p (st, off, inlen) ≠ OutOfFuel.
Proof.
  intros Hrate. revert st off inlen.
  induction fuel as [|fuel IH]; intros st off inlen Hfuel;
    cbn [absorb_blocks snd]; destruct (Z.geb_spec inlen rate); try done; try lia.
  unfold absorb_block. pose proof (xor_in_fuel st 0 p off rate).
  destruct (xor_in st 0 p off rate); [|done..]. cbn.
  apply IH. lia.
Qed.

Lemma absorb_blocks_remaining rate p fuel s s' :
  0 ≤ rate →
  absorb_blocks permute fuel rate p s = Done s' → s'.2 ≤ s.2.
Proof.
  intros Hrate. revert s.
  induction fuel as [|fuel IH]; intros [[st off] inlen];
    cbn [absorb_blocks snd]; destruct (Z.geb_spec inlen rate);
    try done; try (intros [= <-]; cbn; lia).
  unfold absorb_block. destruct (xor_in st 0 p off rate); [|done..]. cbn.
  intros Hrun. apply IH in Hrun. cbn in *. lia.
Qed.

Lemma sponge_absorb_fuel fuel c p inlen :
  1 ≤ ctx_rate c → 0 ≤ inlen < Z.of_nat fuel →
  sponge_absorb permute fuel c p inlen ≠ OutOfFuel.
Proof.
  intros Hrate Hfuel. unfold sponge_absorb.
  assert (Hhead : ∀ r, absorb_head permute (ctx_a c) (ctx_rate c) (ctx_pos c) p inlen = r →
                       r ≠ OutOfFuel ∧ ∀ st pos off n, r = Done (st, pos, off, n) → n ≤ inlen).
  { intros r <-. unfold absorb_head.
    destruct (ctx_pos c =? 0).
    { split; [done|]. intros ???? [= _ _ _ <-]. lia. }
    set (t := if size_sub (ctx_rate c) (ctx_pos c) >? inlen then inlen
              else size_sub (ctx_rate c) (ctx_pos c)).
    assert (0 ≤ t).
    { unfold t. destruct (Z.gtb_spec (size_sub (ctx_rate c) (ctx_pos c)) inlen); [lia|].
      apply Z.mod_pos_bound. done. }
    pose proof (xor_in_fuel (ctx_a c) (ctx_pos c) p 0 t).
    destruct (xor_in (ctx_a c) (ctx_pos c) p 0 t); [|done..]. cbn.
    destruct (size_add (ctx_pos c) t =? ctx_rate c);
      (split; [done|]; intros ???? [= _ _ _ <-]; lia). }
  destruct (Hhead _ eq_refl) as [Hne Hlen].
  destruct (absorb_head _ _ _ _ _ _) as [[[[st pos] off] n]| |]; [|done..].
  cbn. specialize (Hlen _ _ _ _ eq_refl).
  pose proof (absorb_blocks_fuel (ctx_rate c) p fuel st off n Hrate ltac:(lia)).
  destruct (absorb_blocks _ _ _ _ _) as [[[st2 off2] n2]| |]; [|done..].
  cbn. unfold absorb_tail. destruct (n2 =? 0); [done|].
  pose proof (xor_in_fuel st2 pos p off2 n2).
  by destruct (xor_in st2 pos p off2 n2).
Qed.

(** Each pass through [while (outlen)] produces at least one byte. *)
Lemma squeeze_chunk_decreases rate st pos out outlen st' pos' out' outlen' :
  1 ≤ rate < SIZE_MOD → 0 ≤ pos < SIZE_MOD → 0 < outlen →
  squeeze_chunk permute rate (st, pos, out, outlen) =
    Done (st', pos', out', outlen') →
  0 ≤ outlen' < outlen ∧ 0 ≤ pos' < SIZE_MOD.
Proof.
  intros Hrate Hpos Hout. unfold squeeze_chunk.
  set (sp := if pos =? rate then (permute st, 0) else (st, pos)).
  assert (Hsp : 0 ≤ sp.2 < SIZE_MOD ∧ sp.2 ≠ rate).
  { unfold sp. destruct (Z.eqb_spec pos rate); cbn; lia. }
  destruct sp as [st1 pos1]. cbn [snd] in Hsp.
  set (t := if size_sub rate pos1 >? outlen then outlen else size_sub rate pos1).
  assert (Ht : 1 ≤ t ≤ outlen).
  { unfold t. destruct (Z.gtb_spec (size_sub rate pos1) outlen); [lia|].
    split; [|lia]. unfold size_sub in *.
    pose proof (Z.mod_pos_bound (rate - pos1) SIZE_MOD ltac:(done)).
    destruct (Z.eq_dec ((rate - pos1) mod SIZE_MOD) 0) as [E|]; [|lia].
    apply Z.mod_divide in E; [|done]. destruct E as [k Hk].
    unfold SIZE_MOD in *. lia. }
  destruct (st_read st1 pos1 t); cbn; [|done..].
  intros [= _ <- _ <-]. split; [lia|]. apply Z.mod_pos_bound. done.
Qed.

Lemma squeeze_chunk_fuel rate s : squeeze_chunk permute rate s ≠ OutOfFuel.
Proof.
  destruct s as [[[st pos] out] outlen]. unfold squeeze_chunk.
  destruct (if pos =? rate then _ else _) as [st1 pos1].
  set (t := if _ >? outlen then outlen else _).
  pose proof (read_loop_fuel (Z.to_nat t) st1 pos1).
  unfold st_read. by destruct (read_loop _ st1 pos1).
Qed.

Lemma squeeze_loop_fuel rate fuel st pos out outlen :
  1 ≤ rate < SIZE_MOD → 0 ≤ pos < SIZE_MOD → 0 ≤ outlen < Z.of_nat fuel →
  squeeze_loop permute fuel rate (st, pos, out, outlen) ≠ OutOfFuel.
Proof.
  intros Hrate. revert st pos out outlen.
  induction fuel as [|fuel IH]; intros st pos out outlen Hpos Hfuel;
    cbn [squeeze_loop snd]; destruct (Z.eqb_spec outlen 0); try done; try lia.
  pose proof (squeeze_chunk_fuel rate (st, pos, out, outlen)).
  destruct (squeeze_chunk permute rate (st, pos, out, outlen))
    as [[[[st' pos'] out'] outlen']| |] eqn:E; [|done..].
  apply squeeze_chunk_decreases in E; [|lia..]. cbn.
  apply IH; lia.
Qed.

Lemma sponge_squeeze_fuel fuel c outlen :
  1 ≤ ctx_rate c < SIZE_MOD → 0 ≤ ctx_pos c < SIZE_MOD →
  0 ≤ outlen < Z.of_nat fuel →
  sponge_squeeze permute fuel c outlen ≠ OutOfFuel.
Proof.
  intros Hrate Hpos Hfuel. unfold sponge_squeeze.
  pose proof (squeeze_loop_fuel (ctx_rate c) fuel (ctx_a c) (ctx_pos c) []
                outlen Hrate Hpos Hfuel).
  by destruct (squeeze_loop _ _ _ _) as [[[[??]?]?]| |].
Qed.

(** With [rate = 0] neither loop makes progress. *)
Lemma absorb_block_rate0 p st off inlen :
  absorb_block permute 0 p (st, off, inlen) = Done (permute st, off, inlen).
Proof.
  unfold absorb_block. rewrite xor_in_zero by lia. cbn.
  by rewrite Z.add_0_r, Z.sub_0_r.
Qed.

Lemma squeeze_chunk_rate0 st out outlen :
  0 ≤ outlen →
  squeeze_chunk permute 0 (st, 0, out, outlen) =
    Done (permute st, 0, out, outlen).
Proof.
  intros Hout. unfold squeeze_chunk. cbn.
  change (size_sub 0 0) with 0.
  replace (0 >? outlen) with false by lia.
  change (st_read (permute st) 0 0) with (Done (@nil Z)).
  change (size_add 0 0) with 0. cbn.
  by rewrite app_nil_r, Z.sub_0_r.
Qed.

Lemma absorb_blocks_rate0 p fuel st off inlen :
  0 ≤ inlen → absorb_blocks permute fuel 0 p (st, off, inlen) = OutOfFuel.
Proof.
  intros Hin. revert st.
  induction fuel as [|fuel IH]; intros st; cbn [absorb_blocks snd];
    replace (inlen >=? 0) with true by lia; [done|].
  rewrite absorb_block_rate0. cbn. apply IH.
Qed.

Lemma squeeze_loop_rate0 fuel st out outlen :
  0 < outlen → squeeze_loop permute fuel 0 (st, 0, out, outlen) = OutOfFuel.
Proof.
  intros Hout. revert st.
  induction fuel as [|fuel IH]; intros st; cbn [squeeze_loop snd];
    replace (outlen =? 0) with false by lia; [done|].
  rewrite squeeze_chunk_rate0 by lia. cbn. apply IH.
Qed.
End Termination.

(** ** The permutation against the standard *)

(** The reference permutation reproduces the published values: the first
    two lanes of Keccak-f[1600] applied to the all-zero state, and the two
    empty-input digests (the specification prints their first 63
    digits). *)
Lemma standard_permutation_known_answers :
  take 2 (Fips202.keccak_f keccak_state_zero) =
    [0xF1258F7940E1DDE7; 0x84D5CCF933C0478A] ∧
  hex_of_bytes <$> sponge_hash Fips202.keccak_f 33 (Some []) 0 32 136 0x01 =
    Done (String.append spec_keccak256_empty_hex "0") ∧
  hex_of_bytes <$> sponge_hash Fips202.keccak_f 33 (Some []) 0 32 136 0x06 =
    Done (String.append spec_sha3_256_empty_hex "a").
Proof. repeat split; vm_compute; reflexivity. Qed.

(** ** Lanes stay in range *)

Lemma lane_ok_testbit (w : Z) :
  lane_ok w ↔ 0 ≤ w ∧ ∀ n, 64 ≤ n → Z.testbit w n = false.
Proof.
  unfold lane_ok, U64_MOD. split.
  - intros Hw. split; [lia|]. intros n Hn.
    destruct (Z.eq_dec w 0) as [->|Hw0]; [apply Z.bits_0|].
    apply Z.bits_above_log2; [lia|].
    assert (Z.log2 w < 64) by (apply Z.log2_lt_pow2; lia). lia.
  - intros [Hw Hbits]. split; [done|].
    destruct (Z.eq_dec w 0) as [->|Hw0]; [lia|].
    apply Z.log2_lt_pow2; [lia|].
    destruct (Z.lt_ge_cases (Z.log2 w) 64) as [|Hge]; [done|].
    specialize (Hbits (Z.log2 w) Hge).
    rewrite Z.bit_log2 in Hbits by lia. done.
Qed.

Lemma lane_ok_0 : lane_ok 0.
Proof. unfold lane_ok, U64_MOD. lia. Qed.

Lemma lane_ok_lxor (a b : Z) : lane_ok a → lane_ok b → lane_ok (Z.lxor a b).
Proof.
  rewrite !lane_ok_testbit. intros [Ha Hba] [Hb Hbb]. split.
  - by apply Z.lxor_nonneg.
  - intros n Hn. by rewrite Z.lxor_spec, Hba, Hbb.
Qed.

Lemma lane_ok_land (a b : Z) : lane_ok a → lane_ok b → lane_ok (Z.land a b).
Proof.
  rewrite !lane_ok_testbit. intros [Ha Hba] [Hb Hbb]. split.
  - apply Z.land_nonneg. by left.
  - intros n Hn. by rewrite Z.land_spec, Hba.
Qed.

Lemma lane_ok_lor (a b : Z) : lane_ok a → lane_ok b → lane_ok (Z.lor a b).
Proof.
  rewrite !lane_ok_testbit. intros [Ha Hba] [Hb Hbb]. split.
  - by apply Z.lor_nonneg.
  - intros n Hn. by rewrite Z.lor_spec, Hba, Hbb.
Qed.

Lemma lane_ok_mod (a : Z) : lane_ok (a mod U64_MOD).
Proof. apply Z.mod_pos_bound. done. Qed.

Lemma lane_ok_not64 (a : Z) : lane_ok (not64 a).
Proof. apply lane_ok_mod. Qed.

Lemma lane_ok_shiftr (a n : Z) : lane_ok a → 0 ≤ n → lane_ok (Z.shiftr a n).
Proof.
  rewrite !lane_ok_testbit. intros [Ha Hba] Hn. split.
  - by apply Z.shiftr_nonneg.
  - intros m Hm. rewrite Z.shiftr_spec by lia. apply Hba. lia.
Qed.

Lemma lane_ok_keccak_rotl64 (w n : Z) : lane_ok w → lane_ok (keccak_rotl64 w n).
Proof.
  intros Hw. unfold keccak_rotl64. apply lane_ok_lor; [apply lane_ok_mod|].
  apply lane_ok_shiftr; [done|]. apply Z.land_nonneg. right. lia.
Qed.

Lemma not64_lxor (w : Z) : lane_ok w → Z.lxor w (2 ^ 64 - 1) = not64 w.
Proof.
  intros Hw. unfold not64, U64_MOD. change (2 ^ 64 - 1) with (Z.ones 64).
  rewrite <- Z.land_ones by lia.
  apply Z.bits_inj'; intros n Hn.
  rewrite Z.lxor_spec, Z.land_spec, Z.lnot_spec by done.
  destruct (Z.lt_ge_cases n 64) as [Hlt|Hge].
  - rewrite Z.ones_spec_low by lia. by rewrite andb_true_r, xorb_true_r.
  - rewrite Z.ones_spec_high by lia.
    apply lane_ok_testbit in Hw as [_ Hbits].
    by rewrite Hbits, andb_false_r.
Qed.

Lemma rotl_keccak_rotl64 (w : Z) (n : nat) :
  lane_ok w → (n < 64)%nat →
  Fips202.rotl w n = keccak_rotl64 w (Z.of_nat n).
Proof.
  intros Hw Hn. unfold Fips202.rotl, keccak_rotl64, U64_MOD.
  rewrite Nat.mod_small by done.
  set (k := Z.of_nat n). assert (Hk : 0 ≤ k < 64) by lia.
  assert (Ek : Z.land k 63 = k).
  { change 63 with (Z.ones 6). rewrite Z.land_ones by lia.
    apply Z.mod_small. change (2 ^ 6) with 64. lia. }
  rewrite Ek.
  destruct (Z.eq_dec k 0) as [->|Hk0].
  - change (Z.land (64 - 0) 63) with 0.
    unfold lane_ok, U64_MOD in Hw.
    rewrite Z.shiftl_0_r, Z.shiftr_0_r.
    change (2 ^ 0) with 1. change (64 - 0) with 64.
    rewrite Z.mul_1_r, !Z.mod_small, Z.div_small, Z.lor_diag by lia. lia.
  - assert (Ek' : Z.land (64 - k) 63 = 64 - k).
    { change 63 with (Z.ones 6). rewrite Z.land_ones by lia.
      apply Z.mod_small. change (2 ^ 6) with 64. lia. }
    rewrite Ek', Z.shiftl_mul_pow2, Z.shiftr_div_pow2 by lia.
    rewrite Z.add_nocarry_lxor, Z.lxor_lor; [done| |].
    all: apply Z.bits_inj'; intros m Hm; rewrite Z.land_spec, Z.bits_0.
    all: rewrite <- Z.shiftl_mul_pow2, <- Z.shiftr_div_pow2 by lia.
    all: change (2 ^ 64) with (2 ^ 64); rewrite <- (Z.land_ones _ 64) by lia.
    all: rewrite Z.land_spec, Z.shiftr_spec by lia.
    all: destruct (Z.lt_ge_cases m k) as [Hlt|Hge].
    all: try (rewrite Z.shiftl_spec_low by lia; done).
    all: apply lane_ok_testbit in Hw as [_ Hbits].
    all: rewrite (Hbits (m + (64 - k))) by lia.
    all: by rewrite andb_false_r.
Qed.

Lemma lane_ok_rotl (w : Z) (n : nat) :
  lane_ok w → (n < 64)%nat → lane_ok (Fips202.rotl w n).
Proof.
  intros Hw Hn. rewrite rotl_keccak_rotl64 by done.
  by apply lane_ok_keccak_rotl64.
Qed.

Lemma rotl_0 (w : Z) : lane_ok w → Fips202.rotl w 0 = w.
Proof.
  intros Hw. unfold lane_ok, U64_MOD in Hw. unfold Fips202.rotl.
  change (Z.of_nat (0 mod 64)) with 0. change (2 ^ 0) with 1.
  change (64 - 0) with 64.
  rewrite Z.mul_1_r, Z.mod_small, Z.div_small by lia. lia.
Qed.

Ltac solve_lane_ok :=
  repeat first
    [ assumption
    | apply lane_ok_0
    | apply lane_ok_not64
    | apply lane_ok_lxor
    | apply lane_ok_land
    | apply lane_ok_keccak_rotl64
    | apply lane_ok_rotl; [|lia] ].

Ltac destruct_state s Hlen Hs :=
  do 25 (destruct s as [|? s]; [discriminate Hlen|]);
  destruct s; [|discriminate Hlen];
  repeat match goal with
         | H : Forall _ (_ :: _) |- _ => apply Forall_cons in H as [? H]
         end.

Lemma coded_round_steps (rc : Z) (s : list Z) :
  state_ok s → coded_round rc s = steps_round rc s.
Proof.
  intros [Hlen Hs]. destruct_state s Hlen Hs.
  cbv -[Z.lxor Z.land Fips202.rotl keccak_rotl64 not64 Z.sub Z.pow].
  rewrite !Z.lxor_0_l.
  rewrite !rotl_0 by solve_lane_ok.
  rewrite !rotl_keccak_rotl64 by (lia || solve_lane_ok).
  rewrite !not64_lxor by solve_lane_ok.
  reflexivity.
Qed.

Lemma coded_round_ok (rc : Z) (s : list Z) :
  lane_ok rc → state_ok s → state_ok (coded_round rc s).
Proof.
  intros Hrc [Hlen Hs]. destruct_state s Hlen Hs.
  split; [done|].
  cbv -[Z.lxor Z.land keccak_rotl64 not64 lane_ok].
  repeat (apply Forall_cons; split; [solve_lane_ok|]).
  apply Forall_nil_2.
Qed.

Lemma load_store_lanes (r : regs) : load_lanes (store_lanes r) = r.
Proof. by destruct r. Qed.

Lemma store_load_lanes (s : list Z) :
  length s = 25%nat → store_lanes (load_lanes s) = s.
Proof.
  intros Hlen.
  do 25 (destruct s as [|? s]; [discriminate Hlen|]).
  by destruct s.
Qed.

Lemma keccak_rounds_coded (rcs : list Z) (r : regs) :
  foldl (fun r rc => KECCAK_ROUND rc r) r rcs =
  load_lanes (foldl (fun s rc => coded_round rc s) (store_lanes r) rcs).
Proof.
  revert r. induction rcs as [|rc rcs IH]; intros r; cbn [foldl].
  - by rewrite load_store_lanes.
  - rewrite IH. f_equal. f_equal. unfold coded_round.
    by rewrite load_store_lanes.
Qed.

Lemma coded_rounds_steps (rcs : list Z) (s : list Z) :
  state_ok s → Forall lane_ok rcs →
  foldl (fun s rc => coded_round rc s) s rcs =
    foldl (fun s rc => steps_round rc s) s rcs ∧
  state_ok (foldl (fun s rc => coded_round rc s) s rcs).
Proof.
  revert s. induction rcs as [|rc rcs IH]; intros s Hs Hrcs; [done|].
  apply Forall_cons in Hrcs as [Hrc Hrcs]. cbn [foldl].
  rewrite <- coded_round_steps by done.
  apply IH; [by apply coded_round_ok|done].
Qed.

Lemma KECCAK_RC_lanes : Forall lane_ok KECCAK_RC.
Proof.
  unfold KECCAK_RC.
  repeat (apply Forall_cons; split; [unfold lane_ok, U64_MOD; lia|]).
  apply Forall_nil_2.
Qed.

Lemma KECCAK_RC_standard : KECCAK_RC = Fips202.RC <$> seq 0 24.
Proof. vm_compute. reflexivity. Qed.

(** X2. On every state of 25 lanes below [2^64], [keccakf1600] is 24
    rounds of theta, the transposing rho/pi block, chi and iota with the
    standard round constants, and its result is again such a state. *)
Lemma keccakf1600_as_coded_rounds (s : list Z) :
  state_ok s →
  keccakf1600 s = foldl round_as_coded s (seq 0 24) ∧
  state_ok (keccakf1600 s).
Proof.
  intros Hs. pose proof Hs as [Hlen _].
  destruct (coded_rounds_steps KECCAK_RC s Hs KECCAK_RC_lanes) as [Heq Hok].
  assert (Hk : keccakf1600 s = foldl (fun s rc => coded_round rc s) s KECCAK_RC).
  { unfold keccakf1600, keccak_rounds. rewrite keccak_rounds_coded.
    rewrite (store_load_lanes s Hlen). apply store_load_lanes, Hok. }
  rewrite Hk. split; [|done].
  rewrite Heq, KECCAK_RC_standard.
  apply (foldl_fmap (fun s rc => steps_round rc s) s (seq 0 24) Fips202.RC).
Qed.

(** C2. [keccakf1600] is not Keccak-f[1600]: its round constants are the
    standard ones and its 24 rounds run theta, a rho/pi block, chi and
    iota in this order, but the rho/pi block moves lane [(y, x)] to
    [(x, y)] instead of applying pi, so the results differ from the
    standard permutation already on the all-zero state. *)
Theorem keccakf1600_not_standard :
  KECCAK_RC = Fips202.RC <$> seq 0 24 ∧
  keccakf1600 keccak_state_zero = foldl round_as_coded keccak_state_zero (seq 0 24) ∧
  keccakf1600 counting_state = foldl round_as_coded counting_state (seq 0 24) ∧
  keccakf1600 keccak_state_zero !!! 0%nat = 0x3FE125C4026115D6 ∧
  Fips202.keccak_f keccak_state_zero !!! 0%nat = 0xF1258F7940E1DDE7 ∧
  keccakf1600 keccak_state_zero ≠ Fips202.keccak_f keccak_state_zero ∧
  keccakf1600 counting_state ≠ Fips202.keccak_f counting_state.
Proof.
  repeat split; try (vm_compute; reflexivity);
    intros H; apply (f_equal (fun s => s !!! 0%nat)) in H;
    vm_compute in H; discriminate H.
Qed.

(** ** Known answers *)

(** C1. On the empty input [keccak_256] and [sha3_256] return, but the 32
    bytes they write are not the digests the specification quotes: the
    hexadecimal form of neither output starts with the quoted text. *)
Theorem empty_input_digests :
  hex_of_bytes <$> keccak_256 33 (Some []) 0 =
    Done "9e4c11b2a567c72fb457a9dee16f636c5b1f16a0372ee07d8fcbe729d53731a0"%string ∧
  hex_of_bytes <$> sha3_256 33 (Some []) 0 =
    Done "4d44f917a2612328bf726382a2bcb2e5efab3874e98fc63d1e996b74333ff0dc"%string ∧
  String.prefix spec_keccak256_empty_hex
    "9e4c11b2a567c72fb457a9dee16f636c5b1f16a0372ee07d8fcbe729d53731a0" = false ∧
  String.prefix spec_sha3_256_empty_hex
    "4d44f917a2612328bf726382a2bcb2e5efab3874e98fc63d1e996b74333ff0dc" = false.
Proof. repeat split; vm_compute; reflexivity. Qed.

(** ** The cursor *)

(** Where the documented range [0 <= pos < rate] does hold: after
    [keccak1600_init], and across [keccak1600_absorb] and
    [keccak1600_finalize]; [keccak1600_squeeze] only keeps
    [0 <= pos <= rate]. *)
Lemma position_range_kept (fuel : nat) (c : keccak1600_ctx) (buf : list Z)
    (n : nat) (rate delim : Z) :
  1 ≤ rate ≤ 200 → ctx_ok c →
  Z.of_nat (length buf) < Z.of_nat fuel → (n < fuel)%nat →
  ctx_ok (keccak1600_init rate delim) ∧
  (∃ c', keccak1600_absorb fuel c (Some buf) (Z.of_nat (length buf)) = Done c' ∧
         ctx_ok c') ∧
  (∃ c', keccak1600_finalize c = Done c' ∧ ctx_ok c' ∧ ctx_pos c' = 0) ∧
  (∃ out c', keccak1600_squeeze fuel c (Z.of_nat n) = Done (out, c') ∧
             ctx_sq_ok c').
Proof.
  intros Hrate Hc Hbuf Hn. pose proof keccakf1600_length' as Hperm.
  split; [by apply keccak1600_init_ok|].
  split; [|split].
  - exists (absorb_run keccakf1600 c buf). split.
    + by apply sponge_absorb_ok.
    + by apply absorb_run_ok.
  - exists (finalize_run keccakf1600 c). split; [|split].
    + by apply sponge_finalize_ok.
    + by apply finalize_run_ok.
    + done.
  - exists (squeeze_run keccakf1600 c n).1, (squeeze_run keccakf1600 c n).2.
    split.
    + rewrite <- surjective_pairing.
      apply sponge_squeeze_ok; [done|by apply ctx_ok_sq_ok|done].
    + apply squeeze_run_ok; [done|by apply ctx_ok_sq_ok].
Qed.

(** Squeezing a whole rate window from a fresh cursor leaves the cursor
    on the end of the window. *)
Lemma squeeze_window_position (fuel : nat) (c : keccak1600_ctx) :
  ctx_ok c → ctx_pos c = 0 → ctx_rate c < Z.of_nat fuel →
  ∃ out c',
    keccak1600_squeeze fuel c (ctx_rate c) = Done (out, c') ∧
    ctx_pos c' = ctx_rate c ∧ ctx_rate c' = ctx_rate c.
Proof.
  intros (Hlen & Hrate & Hpos) Hpos0 Hfuel.
  set (n := Z.to_nat (ctx_rate c)).
  exists (squeeze_run keccakf1600 c n).1, (squeeze_run keccakf1600 c n).2.
  split.
  - rewrite <- surjective_pairing.
    pose proof (sponge_squeeze_ok keccakf1600 keccakf1600_length' fuel c n) as H.
    replace (Z.of_nat n) with (ctx_rate c) in H by lia.
    apply H; [unfold ctx_sq_ok; lia|lia].
  - unfold squeeze_run. cbn.
    rewrite Hpos0, squeeze_bytes_window by lia. cbn. lia.
Qed.

(** C7. The range [0 <= pos < rate] is not preserved by
    [keccak1600_squeeze]: on a SHA3-256 context finalized on the empty
    input, squeezing 136 bytes returns with [pos = rate = 136]. *)
Theorem squeeze_leaves_position_at_rate :
  ∃ c out c',
    keccak1600_finalize (keccak1600_init 136 0x06) = Done c ∧
    ctx_ok c ∧
    keccak1600_squeeze 137 c 136 = Done (out, c') ∧
    length out = 136%nat ∧
    ctx_rate c' = 136 ∧ ctx_pos c' = 136 ∧
    ¬ ctx_ok c'.
Proof.
  pose proof keccakf1600_length' as Hperm.
  assert (Hinit : ctx_ok (keccak1600_init 136 0x06))
    by (apply keccak1600_init_ok; lia).
  pose proof (finalize_run_ok keccakf1600 Hperm _ Hinit) as Hc.
  set (c := finalize_run keccakf1600 (keccak1600_init 136 0x06)) in *.
  exists c, (squeeze_run keccakf1600 c 136).1, (squeeze_run keccakf1600 c 136).2.
  assert (Hpos : ctx_pos (squeeze_run keccakf1600 c 136).2 = 136).
  { unfold squeeze_run. cbn [snd ctx_pos].
    change (ctx_pos c) with 0. change (ctx_rate c) with 136.
    by rewrite squeeze_bytes_window. }
  split; [by apply sponge_finalize_ok|].
  split; [done|].
  split.
  { rewrite <- surjective_pairing. change 136 with (Z.of_nat 136) at 1.
    by apply sponge_squeeze_ok; [|apply ctx_ok_sq_ok|lia]. }
  split; [apply length_squeeze_run|].
  split; [done|].
  split; [done|].
  unfold ctx_ok. rewrite Hpos. change (ctx_rate _) with 136. lia.
Qed.

(** ** Streaming *)

Lemma absorb_chunks_ok (fuel : nat) (chunks : list (list Z)) (c : keccak1600_ctx) :
  ctx_ok c → Z.of_nat (length (concat chunks)) < Z.of_nat fuel →
  absorb_chunks fuel c chunks = Done (absorb_run keccakf1600 c (concat chunks)).
Proof.
  revert c. induction chunks as [|ch rest IH]; intros c Hc Hfuel.
  - by destruct c.
  - cbn [absorb_chunks concat] in *. rewrite length_app in Hfuel.
    unfold keccak1600_absorb.
    rewrite sponge_absorb_ok by (done || apply keccakf1600_length' || lia).
    cbn. rewrite IH.
    + by rewrite absorb_run_app.
    + by apply absorb_run_ok; [apply keccakf1600_length'|].
    + lia.
Qed.

(** C3. Chunk independence: absorbing a byte sequence chunk by chunk, for
    any split (empty chunks and splits on a rate boundary included),
    returns the same context as one absorb of the concatenation; and
    [absorb(A); absorb(B); finalize; squeeze(n)] returns the same bytes
    and context as [absorb(A ++ B); finalize; squeeze(n)]. *)
Theorem absorb_chunk_independence (fuel : nat) (c : keccak1600_ctx)
    (chunks : list (list Z)) (A B : list Z) (n : nat) :
  ctx_ok c →
  Z.of_nat (length (concat chunks)) < Z.of_nat fuel →
  Z.of_nat (length (A ++ B)) < Z.of_nat fuel →
  (n < fuel)%nat →
  (∃ c',
     absorb_chunks fuel c chunks = Done c' ∧
     keccak1600_absorb fuel c (Some (concat chunks))
       (Z.of_nat (length (concat chunks))) = Done c') ∧
  (∃ out c',
     (c1 ← keccak1600_absorb fuel c (Some A) (Z.of_nat (length A));
      c2 ← keccak1600_absorb fuel c1 (Some B) (Z.of_nat (length B));
      c3 ← keccak1600_finalize c2;
      keccak1600_squeeze fuel c3 (Z.of_nat n)) = Done (out, c') ∧
     (c2 ← keccak1600_absorb fuel c (Some (A ++ B)) (Z.of_nat (length (A ++ B)));
      c3 ← keccak1600_finalize c2;
      keccak1600_squeeze fuel c3 (Z.of_nat n)) = Done (out, c') ∧
     length out = n).
Proof.
  intros Hc Hchunks HAB Hn. split.
  - exists (absorb_run keccakf1600 c (concat chunks)). split.
    + by apply absorb_chunks_ok.
    + by apply sponge_absorb_ok; [apply keccakf1600_length'|..].
  - pose proof keccakf1600_length' as Hperm.
    pose proof (absorb_run_ok keccakf1600 Hperm c A Hc) as HcA.
    pose proof (absorb_run_ok keccakf1600 Hperm c (A ++ B) Hc) as HcAB.
    pose proof (finalize_run_ok keccakf1600 Hperm _ HcAB) as Hfin.
    rewrite length_app in HAB.
    eexists _, _. unfold keccak1600_absorb, keccak1600_finalize, keccak1600_squeeze.
    rewrite !sponge_absorb_ok by (done || rewrite ?length_app; lia). cbn.
    rewrite sponge_absorb_ok by (done || lia). cbn.
    rewrite <- absorb_run_app.
    rewrite sponge_finalize_ok by done. cbn.
    rewrite sponge_squeeze_ok by (done || by apply ctx_ok_sq_ok).
    rewrite <- surjective_pairing.
    repeat split. apply length_squeeze_run.
Qed.

Lemma absorb_chunk_independence_witness :
  ∃ out c',
    (c1 ← keccak1600_absorb 9 (keccak1600_init 4 0x06) (Some [1; 2; 3; 4]) 4;
     c2 ← keccak1600_absorb 9 c1 (Some [5]) 1;
     c3 ← keccak1600_finalize c2;
     keccak1600_squeeze 9 c3 6) = Done (out, c') ∧
    (c2 ← keccak1600_absorb 9 (keccak1600_init 4 0x06) (Some [1; 2; 3; 4; 5]) 5;
     c3 ← keccak1600_finalize c2;
     keccak1600_squeeze 9 c3 6) = Done (out, c') ∧
    length out = 6%nat.
Proof.
  refine (proj2 (absorb_chunk_independence 9 (keccak1600_init 4 0x06)
                   [[1; 2]; []; [3; 4]; [5]] [1; 2; 3; 4] [5] 6 _ _ _ _)).
  - unfold ctx_ok. cbn. lia.
  - cbn. lia.
  - cbn. lia.
  - lia.
Defined.

(** C4. Squeeze streaming consistency: from any context whose cursor is
    inside or on the end of the rate window (a finalized context has
    cursor 0), squeezing [k] bytes and then [n - k] bytes writes the same
    bytes, and leaves the same context, as squeezing [n] bytes at once. *)
Theorem squeeze_streaming_consistency (fuel : nat) (c : keccak1600_ctx)
    (n k : nat) :
  ctx_sq_ok c → (k ≤ n)%nat → (n < fuel)%nat →
  ∃ o1 c1 o2 c2,
    keccak1600_squeeze fuel c (Z.of_nat k) = Done (o1, c1) ∧
    keccak1600_squeeze fuel c1 (Z.of_nat n - Z.of_nat k) = Done (o2, c2) ∧
    keccak1600_squeeze fuel c (Z.of_nat n) = Done (o1 ++ o2, c2) ∧
    length o1 = k ∧ length o2 = (n - k)%nat.
Proof.
  intros Hc Hk Hn. pose proof keccakf1600_length' as Hperm.
  pose proof (squeeze_run_ok keccakf1600 Hperm c k Hc) as Hc1.
  exists (squeeze_run keccakf1600 c k).1, (squeeze_run keccakf1600 c k).2,
    (squeeze_run keccakf1600 (squeeze_run keccakf1600 c k).2 (n - k)).1,
    (squeeze_run keccakf1600 (squeeze_run keccakf1600 c k).2 (n - k)).2.
  unfold keccak1600_squeeze.
  replace (Z.of_nat n - Z.of_nat k) with (Z.of_nat (n - k)) by lia.
  rewrite !sponge_squeeze_ok by (done || lia).
  rewrite <- !surjective_pairing.
  repeat split; try apply length_squeeze_run.
  replace n with (k + (n - k))%nat at 1 by lia.
  by rewrite squeeze_run_app.
Qed.

Lemma squeeze_streaming_consistency_witness :
  ∃ o1 c1 o2 c2,
    keccak1600_squeeze 12 (keccak1600_init 4 0x1F) 4 = Done (o1, c1) ∧
    keccak1600_squeeze 12 c1 (11 - 4) = Done (o2, c2) ∧
    keccak1600_squeeze 12 (keccak1600_init 4 0x1F) 11 = Done (o1 ++ o2, c2) ∧
    length o1 = 4%nat ∧ length o2 = 7%nat.
Proof.
  refine (squeeze_streaming_consistency 12 (keccak1600_init 4 0x1F) 11 4 _ _ _).
  - unfold ctx_sq_ok. cbn. lia.
  - lia.
  - lia.
Defined.

(** ** Finalization *)

Lemma set_byte_at_lanes (s : list Z) (i b : Z) :
  Forall lane_ok s → Forall lane_ok (set_byte_at s i b).
Proof.
  intros Hs. unfold set_byte_at.
  destruct (decide (Z.to_nat (i / 8) < length s)%nat) as [Hlt|Hge].
  - apply Forall_insert; [done|].
    apply lane_set_byte_range; [apply Z.mod_pos_bound; lia|].
    by apply Forall_lookup_total_1.
  - by rewrite list_insert_ge by lia.
Qed.

(** C5. [keccak1600_finalize] on a context with [1 <= rate <= 200] and
    [0 <= pos < rate]: the state handed to the permutation is the old
    state with [delim] XORed into byte [pos] and [0x80] XORed into byte
    [rate - 1] (both into the same byte when [pos = rate - 1]) and every
    other byte unchanged; the permutation is applied once to it, [pos]
    becomes 0, and [rate] and [delim] are kept. *)
Theorem finalize_pads_and_permutes (c : keccak1600_ctx) :
  ctx_ok c → 0 ≤ ctx_delim c < 256 →
  ∃ st,
    length st = 25%nat ∧
    (∀ i, 0 ≤ i < 200 →
       byte_at st i =
       Z.lxor (Z.lxor (byte_at (ctx_a c) i)
                      (if i =? ctx_pos c then ctx_delim c else 0))
              (if i =? ctx_rate c - 1 then 0x80 else 0)) ∧
    (Forall lane_ok (ctx_a c) → Forall lane_ok st) ∧
    keccak1600_finalize c =
      Done {| ctx_a := keccakf1600 st; ctx_rate := ctx_rate c; ctx_pos := 0;
              ctx_delim := ctx_delim c |}.
Proof.
  intros Hc Hdelim. pose proof Hc as (Hlen & Hrate & Hpos).
  exists (xor_byte_at (xor_byte_at (ctx_a c) (ctx_pos c) (ctx_delim c))
            (ctx_rate c - 1) 0x80).
  split; [by rewrite !length_xor_byte_at|].
  split; [|split].
  - intros i Hi.
    rewrite byte_at_xor_byte_at by (rewrite ?length_xor_byte_at; done || lia).
    rewrite byte_at_xor_byte_at by (done || lia).
    rewrite !(Z.eqb_sym i).
    destruct (ctx_rate c - 1 =? i), (ctx_pos c =? i);
      by rewrite ?Z.lxor_0_r.
  - intros Hlanes. by do 2 apply set_byte_at_lanes.
  - by apply (sponge_finalize_ok keccakf1600).
Qed.

Lemma finalize_pads_and_permutes_witness :
  ∃ st,
    length st = 25%nat ∧
    (∀ i, 0 ≤ i < 200 →
       byte_at st i =
       Z.lxor (Z.lxor (byte_at keccak_state_zero i) (if i =? 0 then 0x06 else 0))
              (if i =? 1 - 1 then 0x80 else 0)) ∧
    (Forall lane_ok keccak_state_zero → Forall lane_ok st) ∧
    keccak1600_finalize (keccak1600_init 1 0x06) =
      Done {| ctx_a := keccakf1600 st; ctx_rate := 1; ctx_pos := 0;
              ctx_delim := 0x06 |}.
Proof.
  refine (finalize_pads_and_permutes (keccak1600_init 1 0x06) _ _).
  - unfold ctx_ok. cbn. lia.
  - cbn. lia.
Defined.

(** ** One-shot helpers *)

Lemma sha3_hash_generic_ok (fuel : nat) (buf : list Z) (outlen : nat)
    (rate delim : Z) :
  1 ≤ rate ≤ 200 → Z.of_nat (length buf) < Z.of_nat fuel → (outlen < fuel)%nat →
  sha3_hash_generic fuel (Some buf) (Z.of_nat (length buf)) (Z.of_nat outlen)
      rate delim =
    Done (squeeze_run keccakf1600
            (finalize_run keccakf1600
               (absorb_run keccakf1600 (keccak1600_init rate delim) buf))
            outlen).1.
Proof.
  intros Hrate Hbuf Hout. pose proof keccakf1600_length' as Hperm.
  pose proof (keccak1600_init_ok rate delim Hrate) as H0.
  pose proof (absorb_run_ok keccakf1600 Hperm _ buf H0) as H1.
  pose proof (finalize_run_ok keccakf1600 Hperm _ H1) as H2.
  unfold sha3_hash_generic, keccak1600_absorb, keccak1600_finalize,
    keccak1600_squeeze.
  rewrite sponge_absorb_ok by done. cbn.
  rewrite sponge_finalize_ok by done. cbn.
  rewrite sponge_squeeze_ok by (done || by apply ctx_ok_sq_ok). done.
Qed.

(** C6. Every one-shot helper is the composition init, absorb of the
    whole input, finalize, squeeze with the parameters of its row in the
    table: Keccak-256 (136, 0x01, 32), SHA3-224 (144, 0x06, 28), SHA3-256
    (136, 0x06, 32), SHA3-384 (104, 0x06, 48), SHA3-512 (72, 0x06, 64). *)
Theorem one_shot_helpers_compose_sponge (fuel : nat) (p : option (list Z))
    (inlen : Z) :
  keccak_256 fuel p inlen = one_shot_spec Keccak256_params fuel p inlen ∧
  sha3_224 fuel p inlen = one_shot_spec SHA3_224_params fuel p inlen ∧
  sha3_256 fuel p inlen = one_shot_spec SHA3_256_params fuel p inlen ∧
  sha3_384 fuel p inlen = one_shot_spec SHA3_384_params fuel p inlen ∧
  sha3_512 fuel p inlen = one_shot_spec SHA3_512_params fuel p inlen.
Proof.
  assert (H : ∀ outlen rate delim,
            sha3_hash_generic fuel p inlen outlen rate delim =
            one_shot_spec {| ps_rate := rate; ps_delim := delim;
                             ps_outlen := outlen |} fuel p inlen).
  { intros outlen rate delim.
    unfold sha3_hash_generic, one_shot_spec, mbind, outcome_bind.
    cbn [ps_rate ps_delim ps_outlen].
    destruct (keccak1600_absorb fuel (keccak1600_init rate delim) p inlen)
      as [c1| |]; [|done..].
    destruct (keccak1600_finalize c1) as [c2| |]; [|done..].
    by destruct (keccak1600_squeeze fuel c2 outlen) as [[out c3]| |]. }
  repeat split; apply H.
Qed.

(** ** The capacity *)

Section Frame.
Variable permute : list Z → list Z.
Variable rate : Z.
Hypothesis rate_range : 1 ≤ rate ≤ 200.
Hypothesis permute_length :
  ∀ s, length s = 25%nat → length (permute s) = 25%nat.
(** The callee leaves the capacity bytes alone. *)
Hypothesis permute_frame :
  ∀ s j, length s = 25%nat → rate ≤ j < 200 →
         byte_at (permute s) j = byte_at s j.

Lemma absorb1_frame sp b j :
  length sp.1 = 25%nat → 0 ≤ sp.2 < rate → rate ≤ j < 200 →
  byte_at (absorb1 permute rate sp b).1 j = byte_at sp.1 j.
Proof.
  intros Hlen Hpos Hj. unfold absorb1.
  assert (Hx : byte_at (xor_byte_at sp.1 sp.2 b) j = byte_at sp.1 j).
  { unfold xor_byte_at. rewrite byte_at_set_byte_at by (done || lia).
    by replace (sp.2 =? j) with false by lia. }
  destruct (sp.2 + 1 =? rate); cbn [fst]; [|done].
  rewrite permute_frame; [done| |done]. by rewrite length_xor_byte_at.
Qed.

Lemma absorb_bytes_frame l sp j :
  length sp.1 = 25%nat → 0 ≤ sp.2 < rate → rate ≤ j < 200 →
  byte_at (absorb_bytes permute rate sp l).1 j = byte_at sp.1 j.
Proof.
  revert sp. induction l as [|b l IH]; intros sp Hlen Hpos Hj; [done|].
  rewrite absorb_bytes_cons.
  destruct (absorb1_ok permute permute_length rate sp b Hlen Hpos).
  rewrite IH by done. by apply absorb1_frame.
Qed.

Lemma squeeze_bytes_frame n sp j :
  length sp.1 = 25%nat → 0 ≤ sp.2 ≤ rate → rate ≤ j < 200 →
  byte_at (squeeze_bytes permute rate n sp).2.1 j = byte_at sp.1 j.
Proof.
  revert sp. induction n as [|n IH]; intros [st pos] Hlen Hpos Hj; [done|].
  cbn [squeeze_bytes fst snd] in *. unfold squeeze1. cbn [fst snd].
  destruct (Z.eqb_spec pos rate) as [->|Hne]; cbn [fst snd].
  - rewrite IH; cbn [fst snd]; [by apply permute_frame|by apply permute_length|lia|done].
  - rewrite IH; cbn [fst snd]; [done|done|lia|done].
Qed.
End Frame.

(** C8. The capacity frame: [keccak1600_absorb] and [keccak1600_squeeze]
    are [sponge_absorb] and [sponge_squeeze] with [keccakf1600] as the
    callee, and for any callee that leaves the bytes [rate .. 199] of the
    state as they are, an absorb call (cursor inside the rate window) or
    a squeeze call (cursor inside or on the end of it) leaves them as
    they are: the byte loops write below [rate] only, and the capacity
    changes only through the permutation calls. *)
Theorem capacity_frame (permute : list Z → list Z) (fuel : nat)
    (c : keccak1600_ctx) (buf : list Z) (n : nat) :
  ctx_sq_ok c →
  (∀ s, length s = 25%nat → length (permute s) = 25%nat) →
  (∀ s j, length s = 25%nat → ctx_rate c ≤ j < 200 →
          byte_at (permute s) j = byte_at s j) →
  Z.of_nat (length buf) < Z.of_nat fuel → (n < fuel)%nat →
  keccak1600_absorb = sponge_absorb keccakf1600 ∧
  keccak1600_squeeze = sponge_squeeze keccakf1600 ∧
  (ctx_pos c < ctx_rate c →
   ∃ c', sponge_absorb permute fuel c (Some buf) (Z.of_nat (length buf)) = Done c' ∧
         ∀ j, ctx_rate c ≤ j < 200 → byte_at (ctx_a c') j = byte_at (ctx_a c) j) ∧
  (∃ out c', sponge_squeeze permute fuel c (Z.of_nat n) = Done (out, c') ∧
         ∀ j, ctx_rate c ≤ j < 200 → byte_at (ctx_a c') j = byte_at (ctx_a c) j).
Proof.
  intros Hc Hperm Hframe Hbuf Hn. pose proof Hc as (Hlen & Hrate & Hpos).
  split; [done|]. split; [done|]. split.
  - intros Hlt. assert (Hc' : ctx_ok c) by (unfold ctx_ok; lia).
    exists (absorb_run permute c buf). split.
    + by apply sponge_absorb_ok.
    + intros j Hj. unfold absorb_run. cbn [ctx_a].
      rewrite (absorb_bytes_frame permute (ctx_rate c)); cbn [fst snd];
        done || lia.
  - exists (squeeze_run permute c n).1, (squeeze_run permute c n).2. split.
    + rewrite <- surjective_pairing. by apply sponge_squeeze_ok.
    + intros j Hj. unfold squeeze_run. cbn [ctx_a snd].
      rewrite (squeeze_bytes_frame permute (ctx_rate c)); cbn [fst snd];
        done || lia.
Qed.

Lemma capacity_frame_witness :
  (∃ c', sponge_absorb id 9 (keccak1600_init 4 0x06) (Some [1; 2; 3; 4; 5]) 5 = Done c' ∧
         ∀ j, 4 ≤ j < 200 → byte_at (ctx_a c') j = byte_at keccak_state_zero j) ∧
  (∃ out c', sponge_squeeze id 9 (keccak1600_init 4 0x06) 6 = Done (out, c') ∧
         ∀ j, 4 ≤ j < 200 → byte_at (ctx_a c') j = byte_at keccak_state_zero j).
Proof.
  pose proof (capacity_frame id 9 (keccak1600_init 4 0x06) [1; 2; 3; 4; 5] 6)
    as H.
  destruct H as (_ & _ & Habs & Hsq).
  - unfold ctx_sq_ok. cbn. lia.
  - intros s Hs. exact Hs.
  - intros s j _ _. reflexivity.
  - cbn. lia.
  - lia.
  - split; [apply Habs; cbn; lia|exact Hsq].
Defined.

(** ** A null input of length zero *)

Section NullInput.
Variable permute : list Z → list Z.

Lemma absorb_head_zero st rate pos p :
  absorb_head permute st rate pos p 0 =
  absorb_head permute st rate pos None 0 ∧
  ∃ st' pos', absorb_head permute st rate pos None 0 = Done (st', pos', 0, 0).
Proof.
  unfold absorb_head. destruct (pos =? 0); [by eauto|].
  assert (Ht : (if size_sub rate pos >? 0 then 0 else size_sub rate pos) = 0).
  { pose proof (Z.mod_pos_bound (rate - pos) SIZE_MOD ltac:(done)).
    unfold size_sub. destruct (Z.gtb_spec ((rate - pos) mod SIZE_MOD) 0); lia. }
  rewrite Ht, !xor_in_zero by lia. cbn.
  destruct (size_add pos 0 =? rate); by eauto.
Qed.

Lemma absorb_blocks_zero fuel rate p st off :
  0 ≤ rate →
  absorb_blocks permute fuel rate p (st, off, 0) =
  if rate =? 0 then OutOfFuel else Done (st, off, 0).
Proof.
  intros Hrate. destruct (Z.eqb_spec rate 0) as [->|Hne].
  - by apply absorb_blocks_rate0.
  - destruct fuel; cbn [absorb_blocks snd];
      by replace (0 >=? rate) with false by lia.
Qed.

Lemma sponge_absorb_null fuel c p :
  0 ≤ ctx_rate c →
  sponge_absorb permute fuel c p 0 = sponge_absorb permute fuel c None 0 ∧
  sponge_absorb permute fuel c None 0 ≠ Fault.
Proof.
  intros Hrate. unfold sponge_absorb.
  destruct (absorb_head_zero (ctx_a c) (ctx_rate c) (ctx_pos c) p)
    as (-> & st' & pos' & ->).
  cbn. rewrite !absorb_blocks_zero by done.
  by destruct (ctx_rate c =? 0).
Qed.
End NullInput.

Lemma sha3_hash_generic_null (fuel : nat) (p : option (list Z))
    (outlen rate delim : Z) :
  0 ≤ rate →
  sha3_hash_generic fuel p 0 outlen rate delim =
  sha3_hash_generic fuel None 0 outlen rate delim.
Proof.
  intros Hrate. unfold sha3_hash_generic, keccak1600_absorb.
  destruct (sponge_absorb_null keccakf1600 fuel (keccak1600_init rate delim) p)
    as [-> _]; done.
Qed.

Lemma sha3_hash_generic_null_run (fuel : nat) (p : option (list Z))
    (outlen : nat) (rate delim : Z) :
  1 ≤ rate ≤ 200 → (outlen < fuel)%nat →
  sha3_hash_generic fuel p 0 (Z.of_nat outlen) rate delim =
    Done (squeeze_run keccakf1600
            (finalize_run keccakf1600 (keccak1600_init rate delim)) outlen).1.
Proof.
  intros Hrate Hout.
  rewrite (sha3_hash_generic_null fuel p) by lia.
  rewrite <- (sha3_hash_generic_null fuel (Some [])) by lia.
  apply (sha3_hash_generic_ok fuel [] outlen rate delim Hrate); [cbn; lia|done].
Qed.

(** C9. A call with input length 0 never reads its input: the result of
    [keccak1600_absorb] with [inlen = 0] is the same for every pointer,
    the null pointer included, and is never a fault; and each one-shot
    helper called with length 0 returns for every pointer, the null
    pointer included.  The bytes it writes are the same for every
    pointer, but they are not the empty-input digest of its variant:
    [keccak_256] writes 9e4c11b2... where Keccak-256 of the empty input
    is c5d24601..., [sha3_224] writes c05e0f5c... for 6b4e0342...,
    [sha3_256] writes 4d44f917... for a7ffc6f8..., [sha3_384] writes
    47e8837e... for 0c63a75b..., and [sha3_512] writes 750baed6... for
    a69f73cc.... *)
Theorem zero_length_input_is_never_read (fuel : nat) (c : keccak1600_ctx)
    (p : option (list Z)) :
  0 ≤ ctx_rate c → (64 < fuel)%nat →
  (keccak1600_absorb fuel c p 0 = keccak1600_absorb fuel c None 0 ∧
   keccak1600_absorb fuel c None 0 ≠ Fault) ∧
  (keccak_256 fuel p 0 =
     Done (bytes_of_hex
       "9e4c11b2a567c72fb457a9dee16f636c5b1f16a0372ee07d8fcbe729d53731a0") ∧
   standard_empty_digest Keccak256_params =
     Done (bytes_of_hex
       "c5d2460186f7233c927e7db2dcc703c0e500b653ca82273b7bfad8045d85a470") ∧
   keccak_256 fuel p 0 ≠ standard_empty_digest Keccak256_params) ∧
  (sha3_224 fuel p 0 =
     Done (bytes_of_hex
       "c05e0f5c9b03f891650d0ffe1c5ed6b0de56a0f0a704d2061fa45a13") ∧
   standard_empty_digest SHA3_224_params =
     Done (bytes_of_hex
       "6b4e03423667dbb73b6e15454f0eb1abd4597f9a1b078e3f5b5a6bc7") ∧
   sha3_224 fuel p 0 ≠ standard_empty_digest SHA3_224_params) ∧
  (sha3_256 fuel p 0 =
     Done (bytes_of_hex
       "4d44f917a2612328bf726382a2bcb2e5efab3874e98fc63d1e996b74333ff0dc") ∧
   standard_empty_digest SHA3_256_params =
     Done (bytes_of_hex
       "a7ffc6f8bf1ed76651c14756a061d662f580ff4de43b49fa82d80a4b80f8434a") ∧
   sha3_256 fuel p 0 ≠ standard_empty_digest SHA3_256_params) ∧
  (sha3_384 fuel p 0 =
     Done (bytes_of_hex
       "47e8837ea79fe5eec9b33d4f62201272eb6bbba66e5162778271be89a85615287d609a3bcf6a0c66521032d2b50c6991") ∧
   standard_empty_digest SHA3_384_params =
     Done (bytes_of_hex
       "0c63a75b845e4f7d01107d852e4c2485c51a50aaaa94fc61995e71bbee983a2ac3713831264adb47fb6bd1e058d5f004") ∧
   sha3_384 fuel p 0 ≠ standard_empty_digest SHA3_384_params) ∧
  (sha3_512 fuel p 0 =
     Done (bytes_of_hex
       "750baed6abf634712985cc861525794750beda2de6a6d67c1efaafda4f3c2a7146c618fd691b130e5a5caa9a0067996846391272785a7fd9706f9ef4b53ad43b") ∧
   standard_empty_digest SHA3_512_params =
     Done (bytes_of_hex
       "a69f73cca23a9ac5c8b567dc185a756e97c982164fe25859e0d1dcc1475c80a615b2123af1f5f94c11e3e9402c3ac558f500199d95b6d3e301758586281dcd26") ∧
   sha3_512 fuel p 0 ≠ standard_empty_digest SHA3_512_params).
Proof.
  intros Hrate Hfuel. split; [by apply sponge_absorb_null|].
  assert (Hrun : ∀ (outlen : nat) rate delim ps code std,
            1 ≤ rate ≤ 200 → (outlen ≤ 64)%nat →
            (squeeze_run keccakf1600
               (finalize_run keccakf1600 (keccak1600_init rate delim))
               outlen).1 = bytes_of_hex code →
            standard_empty_digest ps = Done (bytes_of_hex std) →
            bytes_of_hex code ≠ bytes_of_hex std →
            sha3_hash_generic fuel p 0 (Z.of_nat outlen) rate delim =
              Done (bytes_of_hex code) ∧
            standard_empty_digest ps = Done (bytes_of_hex std) ∧
            sha3_hash_generic fuel p 0 (Z.of_nat outlen) rate delim ≠
              standard_empty_digest ps).
  { intros outlen rate delim ps code std Hr Hout Hcode Hstd Hne.
    rewrite sha3_hash_generic_null_run by (done || lia).
    rewrite Hcode, Hstd. repeat split. congruence. }
  refine (conj _ (conj _ (conj _ (conj _ _)))).
  - apply (Hrun 32%nat 136 0x01); [lia|lia|by vm_compute..].
  - apply (Hrun 28%nat 144 0x06); [lia|lia|by vm_compute..].
  - apply (Hrun 32%nat 136 0x06); [lia|lia|by vm_compute..].
  - apply (Hrun 48%nat 104 0x06); [lia|lia|by vm_compute..].
  - apply (Hrun 64%nat 72 0x06); [lia|lia|by vm_compute..].
Qed.

Lemma zero_length_input_is_never_read_witness :
  (keccak1600_absorb 65 (keccak1600_init 136 0x06) (Some [7]) 0 =
     keccak1600_absorb 65 (keccak1600_init 136 0x06) None 0 ∧
   keccak1600_absorb 65 (keccak1600_init 136 0x06) None 0 ≠ Fault) ∧
  sha3_256 65 None 0 =
    Done (bytes_of_hex
      "4d44f917a2612328bf726382a2bcb2e5efab3874e98fc63d1e996b74333ff0dc") ∧
  sha3_256 65 None 0 ≠ standard_empty_digest SHA3_256_params.
Proof.
  pose proof (zero_length_input_is_never_read 65 (keccak1600_init 136 0x06)
                (Some [7]) ltac:(cbn; lia) ltac:(lia)) as (H1 & _).
  pose proof (zero_length_input_is_never_read 65 (keccak1600_init 136 0x06)
                None ltac:(cbn; lia) ltac:(lia))
    as (_ & _ & _ & (H2 & _ & H3) & _).
  exact (conj H1 (conj H2 H3)).
Defined.

(** ** Termination and the rate *)

(** C10. With [rate >= 1] the loops of [keccak1600_absorb] and
    [keccak1600_squeeze] end for every length: fuel above the length is
    never used up, and every pass of either loop strictly decreases the
    remaining byte count.  [keccak1600_init] stores any rate, 0 included,
    and with [rate = 0] both loops run forever on a non-zero length: a
    pass leaves the remaining count as it was, and no amount of fuel is
    enough. *)
Theorem loops_terminate_iff_rate_positive (fuel fuel' : nat)
    (c : keccak1600_ctx) (p : option (list Z)) (inlen outlen rate delim : Z)
    (st out : list Z) (off : Z) :
  1 ≤ ctx_rate c < SIZE_MOD → 0 ≤ ctx_pos c < SIZE_MOD →
  0 ≤ inlen < Z.of_nat fuel → 0 ≤ outlen < Z.of_nat fuel →
  (* termination *)
  keccak1600_absorb fuel c p inlen ≠ OutOfFuel ∧
  keccak1600_squeeze fuel c outlen ≠ OutOfFuel ∧
  (* the measure *)
  (∀ st' off' inlen',
     ctx_rate c ≤ inlen →
     absorb_block keccakf1600 (ctx_rate c) p (st, off, inlen) =
       Done (st', off', inlen') →
     0 ≤ inlen' < inlen) ∧
  (∀ st' pos' out' outlen',
     0 < outlen →
     squeeze_chunk keccakf1600 (ctx_rate c) (st, ctx_pos c, out, outlen) =
       Done (st', pos', out', outlen') →
     0 ≤ outlen' < outlen) ∧
  (* no validation in init *)
  keccak1600_init rate delim =
    {| ctx_a := keccak_state_zero; ctx_rate := rate; ctx_pos := 0;
       ctx_delim := delim |} ∧
  (* rate = 0 *)
  absorb_block keccakf1600 0 p (st, off, inlen) =
    Done (keccakf1600 st, off, inlen) ∧
  squeeze_chunk keccakf1600 0 (st, 0, out, outlen) =
    Done (keccakf1600 st, 0, out, outlen) ∧
  (0 < inlen →
   keccak1600_absorb fuel' (keccak1600_init 0 delim) p inlen = OutOfFuel) ∧
  (0 < outlen →
   keccak1600_squeeze fuel' (keccak1600_init 0 delim) outlen = OutOfFuel).
Proof.
  intros Hrate Hpos Hin Hout.
  split; [apply sponge_absorb_fuel; lia|].
  split; [apply sponge_squeeze_fuel; lia|].
  split.
  { intros st' off' inlen' Hge Hrun.
    eapply absorb_block_decreases; [| |exact Hrun]; lia. }
  split.
  { intros st' pos' out' outlen' Hpos' Hrun.
    eapply squeeze_chunk_decreases; [| | |exact Hrun]; lia. }
  split; [done|].
  split; [apply absorb_block_rate0|].
  split; [apply squeeze_chunk_rate0; lia|].
  split.
  - intros _. unfold keccak1600_absorb, sponge_absorb. cbn.
    rewrite absorb_blocks_rate0 by lia. done.
  - intros Hpos'. unfold keccak1600_squeeze, sponge_squeeze.
    cbn [keccak1600_init ctx_a ctx_rate ctx_pos].
    rewrite squeeze_loop_rate0 by lia. done.
Qed.

Lemma loops_terminate_iff_rate_positive_witness :
  keccak1600_absorb 300 (keccak1600_init 136 0x06) (Some [1; 2; 3]) 3 ≠ OutOfFuel ∧
  keccak1600_squeeze 300 (keccak1600_init 136 0x06) 200 ≠ OutOfFuel ∧
  keccak1600_absorb 1000 (keccak1600_init 0 0x06) (Some [1; 2; 3]) 3 = OutOfFuel ∧
  keccak1600_squeeze 1000 (keccak1600_init 0 0x06) 200 = OutOfFuel.
Proof.
  pose proof (loops_terminate_iff_rate_positive 300 1000
                (keccak1600_init 136 0x06) (Some [1; 2; 3]) 3 200 0 0x06
                keccak_state_zero [] 0
                ltac:(cbn; unfold SIZE_MOD; lia) ltac:(cbn; unfold SIZE_MOD; lia)
                ltac:(lia) ltac:(lia))
    as (H1 & H2 & _ & _ & _ & _ & _ & H3 & H4).
  exact (conj H1 (conj H2 (conj (H3 ltac:(lia)) (H4 ltac:(lia))))).
Defined.

(** * Further properties *)

(** ** The rotation *)

Lemma land_63 (n : Z) : Z.land n 63 = n mod 64.
Proof. change 63 with (Z.ones 6). by rewrite Z.land_ones by lia. Qed.

(** X1. [keccak_rotl64] is a rotation by [n mod 64]: on a 64-bit word the
    result is a 64-bit word whose bit [i] is bit [(i - n) mod 64] of the
    argument, for every amount [n] (0 and multiples of 64 included). *)
Theorem keccak_rotl64_rotates (w n : Z) :
  lane_ok w →
  lane_ok (keccak_rotl64 w n) ∧
  ∀ i, 0 ≤ i < 64 →
       Z.testbit (keccak_rotl64 w n) i = Z.testbit w ((i - n) mod 64).
Proof.
  intros Hw. split; [by apply lane_ok_keccak_rotl64|].
  intros i Hi. unfold keccak_rotl64, U64_MOD.
  rewrite !land_63.
  pose proof (proj1 (lane_ok_testbit w) Hw) as [_ Hhigh].
  rewrite Z.lor_spec, <- Z.land_ones, Z.land_spec, Z.shiftl_spec,
    Z.shiftr_spec, Z.testbit_ones_nonneg by lia.
  replace (i <? 64) with true by lia. rewrite andb_true_r.
  assert (Hk : 0 ≤ n mod 64 < 64) by (apply Z.mod_pos_bound; lia).
  assert (Hk' : (64 - n) mod 64 = (64 - n mod 64) mod 64).
  { rewrite Zminus_mod_idemp_r. done. }
  assert (Hi' : (i - n) mod 64 = (i - n mod 64) mod 64).
  { rewrite Zminus_mod_idemp_r. done. }
  rewrite Hk', Hi'. set (k := n mod 64) in *.
  destruct (Z.eq_dec k 0) as [->|Hk0].
  - change ((64 - 0) mod 64) with 0.
    rewrite Z.sub_0_r, Z.add_0_r, Z.mod_small by lia. apply orb_diag.
  - rewrite (Z.mod_small (64 - k)) by lia.
    destruct (Z.lt_ge_cases i k) as [Hlt|Hge].
    + rewrite (Z.testbit_neg_r w (i - k)) by lia. cbn [orb].
      f_equal. replace (i - k) with ((i + (64 - k)) + (-1) * 64) by lia.
      rewrite Z_mod_plus_full. rewrite Z.mod_small; lia.
    + rewrite (Hhigh (i + (64 - k))) by lia. rewrite orb_false_r.
      by rewrite Z.mod_small by lia.
Qed.

Lemma keccak_rotl64_rotates_witness :
  lane_ok (keccak_rotl64 0x8000000000000001 65) ∧
  ∀ i, 0 ≤ i < 64 →
       Z.testbit (keccak_rotl64 0x8000000000000001 65) i =
       Z.testbit 0x8000000000000001 ((i - 65) mod 64).
Proof.
  apply (keccak_rotl64_rotates 0x8000000000000001 65).
  unfold lane_ok, U64_MOD. lia.
Defined.

(** ** Finalization as absorption of the padding *)

Lemma lane_set_get_byte (w k : Z) :
  0 ≤ k → lane_set_byte w k (lane_get_byte w k) = w.
Proof.
  intros Hk. unfold lane_set_byte, lane_get_byte.
  apply Z.bits_inj'; intros n Hn.
  rewrite Z.lor_spec, Z.ldiff_spec, !Z.shiftl_spec by lia.
  destruct (Z.lt_ge_cases n (8 * k)) as [Hlt|Hge].
  - rewrite !(Z.testbit_neg_r _ (n - 8 * k)) by lia.
    by rewrite andb_true_r, orb_false_r.
  - rewrite !Z.land_spec, Z.shiftr_spec, testbit_255 by lia.
    replace (n - 8 * k + 8 * k) with n by lia.
    destruct (Z.testbit w n), (n - 8 * k <? 8); done.
Qed.

Lemma lane_set_byte_mask (w k b b' : Z) :
  Z.land b 255 = Z.land b' 255 → lane_set_byte w k b = lane_set_byte w k b'.
Proof. intros H. unfold lane_set_byte. by rewrite H. Qed.

Lemma lane_set_set_byte (w k b b' : Z) :
  0 ≤ k → lane_set_byte (lane_set_byte w k b) k b' = lane_set_byte w k b'.
Proof.
  intros Hk. unfold lane_set_byte.
  apply Z.bits_inj'; intros n Hn.
  rewrite !Z.lor_spec, !Z.ldiff_spec, !Z.lor_spec, !Z.ldiff_spec,
    !Z.shiftl_spec by lia.
  destruct (Z.lt_ge_cases n (8 * k)) as [Hlt|Hge].
  - rewrite !(Z.testbit_neg_r _ (n - 8 * k)) by lia.
    by rewrite !andb_true_r, !orb_false_r.
  - rewrite !Z.land_spec, !testbit_255 by lia.
    destruct (Z.testbit w n), (n - 8 * k <? 8), (Z.testbit b (n - 8 * k)),
      (Z.testbit b' (n - 8 * k)); done.
Qed.

Lemma set_byte_at_same (s : list Z) (i : Z) :
  0 ≤ i → set_byte_at s i (byte_at s i) = s.
Proof.
  intros Hi. unfold set_byte_at, byte_at.
  rewrite lane_set_get_byte by (apply Z.mod_pos_bound; lia).
  apply list_insert_id'. intros Hlt.
  by apply list_lookup_lookup_total_lt.
Qed.

Lemma xor_byte_at_0 (s : list Z) (i : Z) : 0 ≤ i → xor_byte_at s i 0 = s.
Proof.
  intros Hi. unfold xor_byte_at. rewrite Z.lxor_0_r. by apply set_byte_at_same.
Qed.

Lemma set_byte_at_twice (s : list Z) (i b b' : Z) :
  0 ≤ i → set_byte_at (set_byte_at s i b) i b' = set_byte_at s i b'.
Proof.
  intros Hi. unfold set_byte_at.
  destruct (decide (Z.to_nat (i / 8) < length s)%nat) as [Hlt|Hge].
  - rewrite list_lookup_total_insert_eq by done.
    rewrite list_insert_insert_eq.
    by rewrite lane_set_set_byte by (apply Z.mod_pos_bound; lia).
  - by rewrite !list_insert_ge by (rewrite ?length_insert; lia).
Qed.

Lemma land_255_lxor_l (x y : Z) :
  Z.land (Z.lxor (Z.land x 255) y) 255 = Z.land (Z.lxor x y) 255.
Proof.
  apply Z.bits_inj'; intros n Hn.
  rewrite !Z.land_spec, !Z.lxor_spec, Z.land_spec.
  destruct (Z.testbit x n), (Z.testbit y n), (Z.testbit 255 n); done.
Qed.

Lemma xor_byte_at_twice (s : list Z) (i a b : Z) :
  length s = 25%nat → 0 ≤ i < 200 →
  xor_byte_at (xor_byte_at s i a) i b = xor_byte_at s i (Z.lxor a b).
Proof.
  intros Hlen Hi. unfold xor_byte_at.
  rewrite byte_at_set_byte_at, Z.eqb_refl by (done || lia).
  rewrite set_byte_at_twice by lia.
  unfold set_byte_at. f_equal. apply lane_set_byte_mask.
  by rewrite land_255_lxor_l, Z.lxor_assoc.
Qed.

Lemma xor_list_zeros (n : nat) (s : list Z) (pos : Z) :
  0 ≤ pos → xor_list s pos (replicate n 0) = s.
Proof.
  revert pos. induction n as [|n IH]; intros pos Hpos; [done|].
  cbn [replicate xor_list]. rewrite xor_byte_at_0 by done. apply IH. lia.
Qed.

Lemma length_padding (c : keccak1600_ctx) :
  ctx_ok c → Z.of_nat (length (padding c)) = ctx_rate c - ctx_pos c.
Proof.
  intros (Hlen & Hrate & Hpos). unfold padding.
  destruct (Z.eqb_spec (ctx_rate c - ctx_pos c) 1) as [E|E].
  - cbn. lia.
  - cbn [length]. rewrite length_app, length_replicate. cbn. lia.
Qed.

Lemma xor_list_padding (c : keccak1600_ctx) :
  ctx_ok c →
  xor_list (ctx_a c) (ctx_pos c) (padding c) =
  xor_byte_at (xor_byte_at (ctx_a c) (ctx_pos c) (ctx_delim c))
              (ctx_rate c - 1) 0x80.
Proof.
  intros (Hlen & Hrate & Hpos). unfold padding.
  destruct (Z.eqb_spec (ctx_rate c - ctx_pos c) 1) as [E|E].
  - cbn [xor_list]. replace (ctx_rate c - 1) with (ctx_pos c) by lia.
    by rewrite xor_byte_at_twice by (done || lia).
  - cbn [xor_list]. rewrite xor_list_app, xor_list_zeros by lia.
    cbn [xor_list]. f_equal. rewrite length_replicate. lia.
Qed.

(** X10. [keccak1600_finalize] is the absorption of the padding: it
    returns the context that absorbing [delim], zeros, [0x80] up to the
    end of the block (one byte [delim xor 0x80] when one byte is left)
    returns. *)
Theorem finalize_is_absorb_of_padding (fuel : nat) (c : keccak1600_ctx) :
  ctx_ok c → ctx_rate c < Z.of_nat fuel →
  ∃ c',
    keccak1600_finalize c = Done c' ∧
    keccak1600_absorb fuel c (Some (padding c))
      (Z.of_nat (length (padding c))) = Done c'.
Proof.
  intros Hc Hfuel. pose proof Hc as (Hlen & Hrate & Hpos).
  pose proof (length_padding c Hc) as Hpad.
  exists (finalize_run keccakf1600 c). split.
  - by apply sponge_finalize_ok.
  - unfold keccak1600_absorb.
    rewrite sponge_absorb_ok by (done || apply keccakf1600_length' || lia).
    f_equal. unfold absorb_run, finalize_run.
    rewrite (absorb_bytes_fill keccakf1600) by
      (lia || (intros E; rewrite E in Hpad; cbn in Hpad; lia)).
    cbn [fst snd]. by rewrite xor_list_padding.
Qed.

Lemma finalize_is_absorb_of_padding_witness :
  ∃ c',
    keccak1600_finalize (keccak1600_init 4 0x06) = Done c' ∧
    keccak1600_absorb 9 (keccak1600_init 4 0x06) (Some [0x06; 0; 0; 0x80]) 4 =
      Done c'.
Proof.
  apply (finalize_is_absorb_of_padding 9 (keccak1600_init 4 0x06)).
  - unfold ctx_ok. cbn. lia.
  - cbn. lia.
Defined.

(** ** Absorbing inside a block and across its end *)

Lemma byte_at_xor_list (l : list Z) (st : list Z) (pos j : Z) :
  length st = 25%nat → 0 ≤ pos → pos + Z.of_nat (length l) ≤ 200 →
  Forall byte_ok l → 0 ≤ j →
  byte_at (xor_list st pos l) j =
  if (pos <=? j) && (j <? pos + Z.of_nat (length l))
  then Z.lxor (byte_at st j) (l !!! Z.to_nat (j - pos))
  else byte_at st j.
Proof.
  revert st pos. induction l as [|b l IH]; intros st pos Hlen Hpos Hfit Hl Hj.
  - cbn [length xor_list]. change (Z.of_nat 0) with 0. rewrite Z.add_0_r.
    destruct (Z.leb_spec pos j), (Z.ltb_spec j pos); cbn [andb]; done || lia.
  - apply Forall_cons in Hl as [Hb Hl]. cbn [length xor_list] in *.
    rewrite IH by (rewrite ?length_xor_byte_at; done || lia).
    rewrite byte_at_xor_byte_at by (done || lia).
    destruct (Z.eqb_spec pos j) as [Heq|Hne],
      (Z.leb_spec (pos + 1) j), (Z.ltb_spec j (pos + 1 + Z.of_nat (length l))),
      (Z.leb_spec pos j), (Z.ltb_spec j (pos + Z.of_nat (S (length l))));
      cbn [andb]; try lia; try done.
    + subst j. by rewrite Z.sub_diag.
    + f_equal.
      replace (Z.to_nat (j - pos)) with (S (Z.to_nat (j - (pos + 1)))) by lia.
      done.
Qed.

(** X8. An absorb that does not fill the block ([pos + n < rate]) XORs
    input byte [i] into state byte [pos + i], leaves every other byte of
    the state as it was, does not permute, and advances the cursor by
    [n]. *)
Theorem absorb_within_block (fuel : nat) (c : keccak1600_ctx) (buf : list Z) :
  ctx_ok c → Forall byte_ok buf →
  ctx_pos c + Z.of_nat (length buf) < ctx_rate c →
  Z.of_nat (length buf) < Z.of_nat fuel →
  ∃ st,
    length st = 25%nat ∧
    (∀ j, 0 ≤ j < 200 →
       byte_at st j =
       if (ctx_pos c <=? j) && (j <? ctx_pos c + Z.of_nat (length buf))
       then Z.lxor (byte_at (ctx_a c) j) (buf !!! Z.to_nat (j - ctx_pos c))
       else byte_at (ctx_a c) j) ∧
    keccak1600_absorb fuel c (Some buf) (Z.of_nat (length buf)) =
      Done {| ctx_a := st; ctx_rate := ctx_rate c;
              ctx_pos := ctx_pos c + Z.of_nat (length buf);
              ctx_delim := ctx_delim c |}.
Proof.
  intros Hc Hbuf Hshort Hfuel. pose proof Hc as (Hlen & Hrate & Hpos).
  exists (xor_list (ctx_a c) (ctx_pos c) buf).
  split; [by rewrite length_xor_list|]. split.
  - intros j Hj. apply byte_at_xor_list; done || lia.
  - unfold keccak1600_absorb.
    rewrite sponge_absorb_ok by (done || apply keccakf1600_length').
    unfold absorb_run. by rewrite absorb_bytes_partial.
Qed.

Lemma absorb_within_block_witness :
  ∃ st,
    length st = 25%nat ∧
    (∀ j, 0 ≤ j < 200 →
       byte_at st j =
       if (0 <=? j) && (j <? 0 + 3)
       then Z.lxor (byte_at keccak_state_zero j) ([7; 8; 9] !!! Z.to_nat (j - 0))
       else byte_at keccak_state_zero j) ∧
    keccak1600_absorb 9 (keccak1600_init 136 0x06) (Some [7; 8; 9]) 3 =
      Done {| ctx_a := st; ctx_rate := 136; ctx_pos := 0 + 3;
              ctx_delim := 0x06 |}.
Proof.
  apply (absorb_within_block 9 (keccak1600_init 136 0x06) [7; 8; 9]).
  - unfold ctx_ok. cbn. lia.
  - repeat (apply Forall_cons; split; [unfold byte_ok; lia|]).
    apply Forall_nil_2.
  - cbn. lia.
  - cbn. lia.
Defined.

(** X7. Into a context with cursor 0: [rate - 1] bytes are XORed in
    without a permutation and leave the cursor on [rate - 1]; exactly
    [rate] bytes are XORed in, permuted once, and leave the cursor on 0;
    [rate + 1] bytes permute once after the first [rate] bytes and XOR
    the last byte into the permuted state, which leaves the cursor on 1
    when [rate >= 2]; when [rate = 1] that last byte fills a block of
    its own, so the state is permuted a second time and the cursor is
    back on 0. *)
Theorem absorb_around_rate_boundary (fuel : nat) (c : keccak1600_ctx)
    (buf : list Z) :
  ctx_ok c → ctx_pos c = 0 → Z.of_nat (length buf) < Z.of_nat fuel →
  (Z.of_nat (length buf) = ctx_rate c - 1 →
   keccak1600_absorb fuel c (Some buf) (Z.of_nat (length buf)) =
     Done {| ctx_a := xor_list (ctx_a c) 0 buf; ctx_rate := ctx_rate c;
             ctx_pos := ctx_rate c - 1; ctx_delim := ctx_delim c |}) ∧
  (Z.of_nat (length buf) = ctx_rate c →
   keccak1600_absorb fuel c (Some buf) (Z.of_nat (length buf)) =
     Done {| ctx_a := keccakf1600 (xor_list (ctx_a c) 0 buf);
             ctx_rate := ctx_rate c; ctx_pos := 0;
             ctx_delim := ctx_delim c |}) ∧
  (Z.of_nat (length buf) = ctx_rate c + 1 →
   let st :=
     xor_list
       (keccakf1600 (xor_list (ctx_a c) 0 (take (Z.to_nat (ctx_rate c)) buf)))
       0 (drop (Z.to_nat (ctx_rate c)) buf) in
   keccak1600_absorb fuel c (Some buf) (Z.of_nat (length buf)) =
     Done {| ctx_a := if ctx_rate c =? 1 then keccakf1600 st else st;
             ctx_rate := ctx_rate c;
             ctx_pos := if ctx_rate c =? 1 then 0 else 1;
             ctx_delim := ctx_delim c |}).
Proof.
  intros Hc Hpos0 Hfuel. pose proof Hc as (Hlen & Hrate & Hpos).
  unfold keccak1600_absorb.
  rewrite sponge_absorb_ok by (done || apply keccakf1600_length').
  unfold absorb_run. rewrite Hpos0.
  split; [|split].
  - intros Hn. rewrite absorb_bytes_partial by lia. cbn [fst snd].
    do 2 f_equal. lia.
  - intros Hn. rewrite absorb_bytes_fill; [done| |lia].
    intros ->. cbn in Hn. lia.
  - intros Hn. cbv zeta.
    assert (Hdrop : length (drop (Z.to_nat (ctx_rate c)) buf) = 1%nat)
      by (rewrite length_drop; lia).
    rewrite <- (take_drop (Z.to_nat (ctx_rate c)) buf) at 1 2.
    rewrite absorb_bytes_app.
    rewrite absorb_bytes_fill.
    + destruct (Z.eqb_spec (ctx_rate c) 1) as [E|E].
      * rewrite absorb_bytes_fill; [done| |rewrite Hdrop; lia].
        intros E'. by rewrite E' in Hdrop.
      * rewrite absorb_bytes_partial by (rewrite Hdrop; lia).
        cbn [fst snd]. by rewrite Hdrop.
    + intros E. apply (f_equal length) in E. rewrite length_take in E.
      cbn in E. lia.
    + rewrite length_take. lia.
Qed.

Lemma absorb_around_rate_boundary_witness :
  keccak1600_absorb 9 (keccak1600_init 4 0x06) (Some [1; 2; 3]) 3 =
    Done {| ctx_a := xor_list keccak_state_zero 0 [1; 2; 3];
            ctx_rate := 4; ctx_pos := 3; ctx_delim := 0x06 |} ∧
  keccak1600_absorb 9 (keccak1600_init 4 0x06) (Some [1; 2; 3; 4]) 4 =
    Done {| ctx_a := keccakf1600 (xor_list keccak_state_zero 0 [1; 2; 3; 4]);
            ctx_rate := 4; ctx_pos := 0; ctx_delim := 0x06 |} ∧
  keccak1600_absorb 9 (keccak1600_init 4 0x06) (Some [1; 2; 3; 4; 5]) 5 =
    Done {| ctx_a :=
              xor_list
                (keccakf1600 (xor_list keccak_state_zero 0 [1; 2; 3; 4]))
                0 [5];
            ctx_rate := 4; ctx_pos := 1; ctx_delim := 0x06 |} ∧
  keccak1600_absorb 9 (keccak1600_init 1 0x06) (Some [1; 2]) 2 =
    Done {| ctx_a :=
              keccakf1600
                (xor_list (keccakf1600 (xor_list keccak_state_zero 0 [1]))
                   0 [2]);
            ctx_rate := 1; ctx_pos := 0; ctx_delim := 0x06 |}.
Proof.
  assert (Hok : ∀ rate, 1 ≤ rate ≤ 200 → ctx_ok (keccak1600_init rate 0x06))
    by (intros rate Hr; unfold ctx_ok; cbn; lia).
  split; [|split; [|split]].
  - pose proof (absorb_around_rate_boundary 9 (keccak1600_init 4 0x06)
                  [1; 2; 3] (Hok 4 ltac:(lia)) eq_refl ltac:(cbn; lia))
      as (H & _).
    exact (H eq_refl).
  - pose proof (absorb_around_rate_boundary 9 (keccak1600_init 4 0x06)
                  [1; 2; 3; 4] (Hok 4 ltac:(lia)) eq_refl ltac:(cbn; lia))
      as (_ & H & _).
    exact (H eq_refl).
  - pose proof (absorb_around_rate_boundary 9 (keccak1600_init 4 0x06)
                  [1; 2; 3; 4; 5] (Hok 4 ltac:(lia)) eq_refl ltac:(cbn; lia))
      as (_ & _ & H).
    specialize (H eq_refl). revert H.
    cbv zeta. cbn [keccak1600_init ctx_rate].
    change (4 =? 1) with false. cbv iota.
    intros H. exact H.
  - pose proof (absorb_around_rate_boundary 9 (keccak1600_init 1 0x06)
                  [1; 2] (Hok 1 ltac:(lia)) eq_refl ltac:(cbn; lia))
      as (_ & _ & H).
    specialize (H eq_refl). revert H.
    cbv zeta. cbn [keccak1600_init ctx_rate].
    change (1 =? 1) with true. cbv iota.
    intros H. exact H.
Defined.

(** ** Cursor arithmetic *)

Lemma absorb_bytes_pos (permute : list Z → list Z) (rate : Z) (l : list Z)
    (st : list Z) (pos : Z) :
  0 ≤ pos < rate →
  (absorb_bytes permute rate (st, pos) l).2 =
  (pos + Z.of_nat (length l)) mod rate.
Proof.
  revert st pos. induction l as [|b l IH]; intros st pos Hpos.
  - cbn. rewrite Z.add_0_r. by rewrite Z.mod_small.
  - rewrite absorb_bytes_cons. unfold absorb1. cbn [fst snd length].
    destruct (Z.eqb_spec (pos + 1) rate) as [E|E].
    + rewrite IH by lia.
      replace (pos + Z.of_nat (S (length l)))
        with (Z.of_nat (length l) + 1 * rate) by lia.
      by rewrite Z_mod_plus_full.
    + rewrite IH by lia. f_equal. lia.
Qed.

(** X5. After absorbing [n] bytes the cursor is [(pos + n) mod rate]. *)
Theorem absorb_cursor (fuel : nat) (c : keccak1600_ctx) (buf : list Z) :
  ctx_ok c → Z.of_nat (length buf) < Z.of_nat fuel →
  ∃ c',
    keccak1600_absorb fuel c (Some buf) (Z.of_nat (length buf)) = Done c' ∧
    ctx_pos c' = (ctx_pos c + Z.of_nat (length buf)) mod ctx_rate c.
Proof.
  intros Hc Hfuel. pose proof Hc as (Hlen & Hrate & Hpos).
  exists (absorb_run keccakf1600 c buf). split.
  - by apply sponge_absorb_ok; [apply keccakf1600_length'|..].
  - unfold absorb_run. cbn [ctx_pos]. by apply absorb_bytes_pos.
Qed.

Lemma absorb_cursor_witness :
  ∃ c',
    keccak1600_absorb 9 (keccak1600_init 4 0x06) (Some [1; 2; 3; 4; 5; 6]) 6 =
      Done c' ∧
    ctx_pos c' = (0 + 6) mod 4.
Proof.
  apply (absorb_cursor 9 (keccak1600_init 4 0x06) [1; 2; 3; 4; 5; 6]).
  - unfold ctx_ok. cbn. lia.
  - cbn. lia.
Defined.

Lemma squeeze_bytes_pos (permute : list Z → list Z) (rate : Z) (n : nat)
    (st : list Z) (pos : Z) :
  1 ≤ rate → 0 ≤ pos ≤ rate →
  (squeeze_bytes permute rate (S n) (st, pos)).2.2 =
  (pos + Z.of_nat n) mod rate + 1.
Proof.
  intros Hrate. revert st pos.
  induction n as [|n IH]; intros st pos Hpos.
  - cbn. rewrite Z.add_0_r.
    destruct (Z.eqb_spec pos rate) as [->|E]; cbn.
    + by rewrite Z_mod_same_full.
    + by rewrite Z.mod_small by lia.
  - change (squeeze_bytes permute rate (S (S n)) (st, pos))
      with (let r := squeeze1 permute rate (st, pos) in
            let r' := squeeze_bytes permute rate (S n) r.2 in
            (r.1 :: r'.1, r'.2)).
    cbn [fst snd]. unfold squeeze1. cbn [fst snd].
    destruct (Z.eqb_spec pos rate) as [->|E]; cbn [fst snd].
    + rewrite IH by lia.
      replace (rate + Z.of_nat (S n)) with (0 + 1 + Z.of_nat n + 1 * rate) by lia.
      by rewrite Z_mod_plus_full.
    + rewrite IH by lia. do 2 f_equal. lia.
Qed.

(** X6. After squeezing [n >= 1] bytes the cursor is
    [(pos + n - 1) mod rate + 1]: between 1 and [rate], and [rate] itself
    when the output ends on a block boundary. *)
Theorem squeeze_cursor (fuel : nat) (c : keccak1600_ctx) (n : nat) :
  ctx_sq_ok c → (1 ≤ n)%nat → (n < fuel)%nat →
  ∃ out c',
    keccak1600_squeeze fuel c (Z.of_nat n) = Done (out, c') ∧
    ctx_pos c' = (ctx_pos c + Z.of_nat n - 1) mod ctx_rate c + 1.
Proof.
  intros Hc Hn Hfuel. pose proof Hc as (Hlen & Hrate & Hpos).
  exists (squeeze_run keccakf1600 c n).1, (squeeze_run keccakf1600 c n).2.
  split.
  - rewrite <- surjective_pairing.
    by apply sponge_squeeze_ok; [apply keccakf1600_length'|..].
  - unfold squeeze_run. cbn [snd ctx_pos].
    destruct n as [|n]; [lia|].
    rewrite squeeze_bytes_pos by lia. do 2 f_equal. lia.
Qed.

Lemma squeeze_cursor_witness :
  ∃ out c',
    keccak1600_squeeze 9 (keccak1600_init 4 0x1F) 8 = Done (out, c') ∧
    ctx_pos c' = (0 + 8 - 1) mod 4 + 1.
Proof.
  apply (squeeze_cursor 9 (keccak1600_init 4 0x1F) 8).
  - unfold ctx_sq_ok. cbn. lia.
  - lia.
  - lia.
Defined.

(** ** Calls of length zero *)

(** X9. A zero-length absorb on a context with [0 <= pos < rate] returns
    the context unchanged, for every input pointer and any fuel; a
    zero-length squeeze returns no bytes and the context unchanged, for
    every context. *)
Theorem zero_length_calls_change_nothing (fuel : nat) (c c' : keccak1600_ctx)
    (p : option (list Z)) :
  ctx_ok c →
  keccak1600_absorb fuel c p 0 = Done c ∧
  keccak1600_squeeze fuel c' 0 = Done ([], c').
Proof.
  intros (Hlen & Hrate & Hpos). split.
  - unfold keccak1600_absorb, sponge_absorb.
    assert (Hhead : absorb_head keccakf1600 (ctx_a c) (ctx_rate c) (ctx_pos c) p 0 =
                    Done (ctx_a c, ctx_pos c, 0, 0)).
    { unfold absorb_head. destruct (Z.eqb_spec (ctx_pos c) 0) as [E|E].
      - by rewrite E.
      - pose proof SIZE_MOD_big.
        rewrite size_sub_small by lia.
        replace (ctx_rate c - ctx_pos c >? 0) with true by lia.
        rewrite xor_in_zero by lia. cbn.
        rewrite size_add_small by lia. rewrite Z.add_0_r.
        by replace (ctx_pos c =? ctx_rate c) with false by lia. }
    rewrite Hhead. cbn.
    rewrite absorb_blocks_zero by lia.
    replace (ctx_rate c =? 0) with false by lia. cbn.
    by destruct c.
  - unfold keccak1600_squeeze, sponge_squeeze.
    destruct fuel; cbn; by destruct c'.
Qed.

Lemma zero_length_calls_change_nothing_witness :
  keccak1600_absorb 0 (keccak1600_init 136 0x06) None 0 =
    Done (keccak1600_init 136 0x06) ∧
  keccak1600_squeeze 0 (keccak1600_init 0 0x06) 0 =
    Done ([], keccak1600_init 0 0x06).
Proof.
  apply (zero_length_calls_change_nothing 0 (keccak1600_init 136 0x06)
           (keccak1600_init 0 0x06) None).
  unfold ctx_ok. cbn. lia.
Defined.

(** ** Digests *)

Lemma squeeze_bytes_bytes (permute : list Z → list Z) (rate : Z) (n : nat)
    (sp : list Z * Z) :
  Forall byte_ok (squeeze_bytes permute rate n sp).1.
Proof.
  revert sp. induction n as [|n IH]; intros sp; cbn [squeeze_bytes fst].
  - apply Forall_nil_2.
  - apply Forall_cons. split; [apply byte_at_range|apply IH].
Qed.

(** X14. On every input each one-shot helper returns and writes exactly
    its digest length (32, 28, 32, 48, 64) of byte values. *)
Theorem one_shot_output_shape (fuel : nat) (buf : list Z) :
  Z.of_nat (length buf) < Z.of_nat fuel → (64 < fuel)%nat →
  (∃ d, keccak_256 fuel (Some buf) (Z.of_nat (length buf)) = Done d ∧
        length d = 32%nat ∧ Forall byte_ok d) ∧
  (∃ d, sha3_224 fuel (Some buf) (Z.of_nat (length buf)) = Done d ∧
        length d = 28%nat ∧ Forall byte_ok d) ∧
  (∃ d, sha3_256 fuel (Some buf) (Z.of_nat (length buf)) = Done d ∧
        length d = 32%nat ∧ Forall byte_ok d) ∧
  (∃ d, sha3_384 fuel (Some buf) (Z.of_nat (length buf)) = Done d ∧
        length d = 48%nat ∧ Forall byte_ok d) ∧
  (∃ d, sha3_512 fuel (Some buf) (Z.of_nat (length buf)) = Done d ∧
        length d = 64%nat ∧ Forall byte_ok d).
Proof.
  intros Hbuf Hfuel.
  assert (H : ∀ (outlen : nat) rate delim,
            1 ≤ rate ≤ 200 → (outlen < fuel)%nat →
            ∃ d, sha3_hash_generic fuel (Some buf) (Z.of_nat (length buf))
                   (Z.of_nat outlen) rate delim = Done d ∧
                 length d = outlen ∧ Forall byte_ok d).
  { intros outlen rate delim Hrate Hout. eexists. split; [|split].
    - by apply sha3_hash_generic_ok.
    - apply length_squeeze_run.
    - apply squeeze_bytes_bytes. }
  split; [apply (H 32%nat); [done|lia]|].
  split; [apply (H 28%nat); [done|lia]|].
  split; [apply (H 32%nat); [done|lia]|].
  split; [apply (H 48%nat); [done|lia]|].
  apply (H 64%nat); [done|lia].
Qed.

Lemma one_shot_output_shape_witness :
  ∃ d, sha3_512 65 (Some [1; 2; 3]) 3 = Done d ∧
       length d = 64%nat ∧ Forall byte_ok d.
Proof.
  pose proof (one_shot_output_shape 65 [1; 2; 3]) as H.
  destruct H as (_ & _ & _ & _ & H512).
  - cbn. lia.
  - lia.
  - exact H512.
Defined.

(** X15. For an input shorter than the rate and an output not longer
    than the rate, the digest is the first [outlen] bytes of one
    permutation of the padded block: the input XORed into the zero state
    from byte 0, [delim] XORed at byte [inlen] and [0x80] at byte
    [rate - 1]. *)
Theorem single_block_digest (fuel : nat) (buf : list Z) (outlen : nat)
    (rate delim : Z) :
  1 ≤ rate ≤ 200 → Z.of_nat (length buf) < rate → Z.of_nat outlen ≤ rate →
  Z.of_nat (length buf) < Z.of_nat fuel → (outlen < fuel)%nat →
  sha3_hash_generic fuel (Some buf) (Z.of_nat (length buf)) (Z.of_nat outlen)
      rate delim =
    Done (bytes_from
            (keccakf1600
               (xor_byte_at
                  (xor_byte_at (xor_list keccak_state_zero 0 buf)
                               (Z.of_nat (length buf)) delim)
                  (rate - 1) 0x80))
            0 outlen).
Proof.
  intros Hrate Hbuf Hout Hfuel Hfuel'.
  rewrite sha3_hash_generic_ok by done. f_equal.
  unfold squeeze_run, finalize_run, absorb_run.
  cbn [ctx_a ctx_rate ctx_pos ctx_delim keccak1600_init fst snd].
  rewrite absorb_bytes_partial by lia. cbn [fst snd].
  rewrite squeeze_bytes_window by lia. cbn [fst]. by rewrite Z.add_0_l.
Qed.

Lemma single_block_digest_witness :
  sha3_hash_generic 33 (Some [1; 2; 3]) 3 32 136 0x06 =
    Done (bytes_from
            (keccakf1600
               (xor_byte_at
                  (xor_byte_at (xor_list keccak_state_zero 0 [1; 2; 3]) 3 0x06)
                  (136 - 1) 0x80))
            0 32).
Proof.
  apply (single_block_digest 33 [1; 2; 3] 32 136 0x06); cbn; lia.
Defined.

(** ** The loops against the byte-at-a-time sponge *)

(** X3. [keccak1600_absorb], with its three phases, does what absorbing
    the input one byte at a time does (XOR the byte at the cursor, advance,
    permute and reset when the cursor reaches [rate]), and returns a
    context with [0 <= pos < rate]. *)
Theorem absorb_is_bytewise (fuel : nat) (c : keccak1600_ctx) (buf : list Z) :
  ctx_ok c → Z.of_nat (length buf) < Z.of_nat fuel →
  keccak1600_absorb fuel c (Some buf) (Z.of_nat (length buf)) =
    Done (absorb_run keccakf1600 c buf) ∧
  ctx_ok (absorb_run keccakf1600 c buf).
Proof.
  intros Hc Hfuel. split.
  - by apply sponge_absorb_ok; [apply keccakf1600_length'|..].
  - by apply absorb_run_ok; [apply keccakf1600_length'|].
Qed.

Lemma absorb_is_bytewise_witness :
  keccak1600_absorb 9 (keccak1600_init 4 0x06) (Some [1; 2; 3; 4; 5]) 5 =
    Done (absorb_run keccakf1600 (keccak1600_init 4 0x06) [1; 2; 3; 4; 5]) ∧
  ctx_ok (absorb_run keccakf1600 (keccak1600_init 4 0x06) [1; 2; 3; 4; 5]).
Proof.
  apply (absorb_is_bytewise 9 (keccak1600_init 4 0x06) [1; 2; 3; 4; 5]).
  - unfold ctx_ok. cbn. lia.
  - cbn. lia.
Defined.

(** X4. [keccak1600_squeeze] does what squeezing one byte at a time does
    (permute and reset first when the cursor is on [rate], then copy the
    byte at the cursor and advance): it writes exactly [n] byte values and
    returns a context with [0 <= pos <= rate]. *)
Theorem squeeze_is_bytewise (fuel : nat) (c : keccak1600_ctx) (n : nat) :
  ctx_sq_ok c → (n < fuel)%nat →
  keccak1600_squeeze fuel c (Z.of_nat n) = Done (squeeze_run keccakf1600 c n) ∧
  length (squeeze_run keccakf1600 c n).1 = n ∧
  Forall byte_ok (squeeze_run keccakf1600 c n).1 ∧
  ctx_sq_ok (squeeze_run keccakf1600 c n).2.
Proof.
  intros Hc Hfuel. split; [|split; [|split]].
  - by apply sponge_squeeze_ok; [apply keccakf1600_length'|..].
  - apply length_squeeze_run.
  - apply squeeze_bytes_bytes.
  - by apply squeeze_run_ok; [apply keccakf1600_length'|].
Qed.

Lemma squeeze_is_bytewise_witness :
  keccak1600_squeeze 12 (keccak1600_init 4 0x1F) 11 =
    Done (squeeze_run keccakf1600 (keccak1600_init 4 0x1F) 11) ∧
  length (squeeze_run keccakf1600 (keccak1600_init 4 0x1F) 11).1 = 11%nat ∧
  Forall byte_ok (squeeze_run keccakf1600 (keccak1600_init 4 0x1F) 11).1 ∧
  ctx_sq_ok (squeeze_run keccakf1600 (keccak1600_init 4 0x1F) 11).2.
Proof.
  apply (squeeze_is_bytewise 12 (keccak1600_init 4 0x1F) 11).
  - unfold ctx_sq_ok. cbn. lia.
  - lia.
Defined.

(** ** Bounds of finalization *)

(** X11. [keccak1600_finalize] stays inside the 200 bytes of the state
    exactly when [pos < 200] and [1 <= rate <= 200]: then it returns with
    [pos = 0]; otherwise (rate 0, where [rate - 1] wraps, or a rate or
    cursor past the state) it accesses a byte outside the state. *)
Theorem finalize_bounds (c : keccak1600_ctx) :
  0 ≤ ctx_rate c < SIZE_MOD →
  (0 ≤ ctx_pos c < 200 ∧ 1 ≤ ctx_rate c ≤ 200 →
   ∃ c', keccak1600_finalize c = Done c' ∧ ctx_pos c' = 0) ∧
  (¬ (0 ≤ ctx_pos c < 200 ∧ 1 ≤ ctx_rate c ≤ 200) →
   keccak1600_finalize c = Fault).
Proof.
  intros Hrate. unfold keccak1600_finalize, sponge_finalize, SIZE_MOD in *.
  split.
  - intros [Hpos Hr]. rewrite st_xor_ok by done. cbn.
    rewrite size_sub_small by (unfold SIZE_MOD; lia).
    rewrite st_xor_ok by lia. cbn. eauto.
  - intros Hbad. unfold st_xor at 2, st_get, st_set.
    destruct (in_state (ctx_pos c)) eqn:Epos; [|done]. cbn.
    unfold in_state in Epos.
    assert (Hidx : ¬ (0 ≤ size_sub (ctx_rate c) 1 < 200)).
    { unfold size_sub, SIZE_MOD.
      destruct (Z.eq_dec (ctx_rate c) 0) as [->|E].
      { change ((0 - 1) mod 2 ^ 64) with 18446744073709551615. lia. }
      rewrite Z.mod_small by lia. lia. }
    unfold st_xor, st_get. by rewrite in_state_false.
Qed.

Lemma finalize_bounds_witness :
  (∃ c', keccak1600_finalize (keccak1600_init 136 0x06) = Done c' ∧
         ctx_pos c' = 0) ∧
  keccak1600_finalize (keccak1600_init 0 0x06) = Fault ∧
  keccak1600_finalize (keccak1600_init 201 0x06) = Fault.
Proof.
  split; [|split].
  - apply (finalize_bounds (keccak1600_init 136 0x06)).
    + cbn. unfold SIZE_MOD. lia.
    + cbn. lia.
  - apply (finalize_bounds (keccak1600_init 0 0x06)).
    + cbn. unfold SIZE_MOD. lia.
    + cbn. lia.
  - apply (finalize_bounds (keccak1600_init 201 0x06)).
    + cbn. unfold SIZE_MOD. lia.
    + cbn. lia.
Defined.

(** ** Reads of the input stay below [inlen] *)

Lemma in_get_prefix (buf extra : list Z) (i : Z) :
  i < Z.of_nat (length buf) →
  in_get (Some (buf ++ extra)) i = in_get (Some buf) i.
Proof.
  intros Hi. unfold in_get. destruct (Z.leb_spec 0 i); [|done].
  by rewrite lookup_app_l by lia.
Qed.

Lemma xor_loop_prefix (buf extra : list Z) (pos off : Z) (n : nat) (i : Z)
    (st : list Z) :
  off + i + Z.of_nat n ≤ Z.of_nat (length buf) →
  xor_loop n i st pos (Some (buf ++ extra)) off =
  xor_loop n i st pos (Some buf) off.
Proof.
  revert i st. induction n as [|n IH]; intros i st Hfit; [done|].
  cbn [xor_loop]. rewrite in_get_prefix by lia.
  destruct (in_get (Some buf) (off + i)) as [v| |]; [|done..]. cbn.
  destruct (st_xor st (size_add pos i) v) as [st'| |]; [|done..]. cbn.
  apply IH. lia.
Qed.

Lemma xor_in_prefix (buf extra : list Z) (st : list Z) (pos off t : Z) :
  off + t ≤ Z.of_nat (length buf) →
  xor_in st pos (Some (buf ++ extra)) off t =
  xor_in st pos (Some buf) off t.
Proof.
  intros Hfit. unfold xor_in.
  destruct (Z.to_nat t) as [|n] eqn:E; [done|].
  apply xor_loop_prefix. lia.
Qed.

Section Prefix.
Variable permute : list Z → list Z.
Variables buf extra : list Z.

Lemma absorb_head_prefix st rate pos :
  absorb_head permute st rate pos (Some (buf ++ extra)) (Z.of_nat (length buf)) =
  absorb_head permute st rate pos (Some buf) (Z.of_nat (length buf)).
Proof.
  unfold absorb_head. destruct (pos =? 0); [done|].
  rewrite xor_in_prefix; [done|].
  destruct (Z.gtb_spec (size_sub rate pos) (Z.of_nat (length buf))); lia.
Qed.

Lemma absorb_head_budget st rate pos p inlen st' pos' off n :
  absorb_head permute st rate pos p inlen = Done (st', pos', off, n) →
  off + n = inlen.
Proof.
  unfold absorb_head. destruct (pos =? 0).
  { intros [= _ _ <- <-]. lia. }
  destruct (xor_in _ _ _ _ _); cbn; [|done..].
  destruct (_ =? rate); intros [= _ _ <- <-]; lia.
Qed.

Lemma absorb_blocks_prefix fuel rate st off inlen :
  off + inlen ≤ Z.of_nat (length buf) →
  absorb_blocks permute fuel rate (Some (buf ++ extra)) (st, off, inlen) =
  absorb_blocks permute fuel rate (Some buf) (st, off, inlen).
Proof.
  revert st off inlen.
  induction fuel as [|fuel IH]; intros st off inlen Hfit; [done|].
  cbn [absorb_blocks snd]. destruct (Z.geb_spec inlen rate); [|done].
  unfold absorb_block. rewrite xor_in_prefix by lia.
  destruct (xor_in st 0 (Some buf) off rate) as [st'| |]; [|done..]. cbn.
  apply IH. lia.
Qed.

Lemma absorb_blocks_budget fuel rate p s s' :
  absorb_blocks permute fuel rate p s = Done s' →
  s'.1.2 + s'.2 = s.1.2 + s.2.
Proof.
  revert s. induction fuel as [|fuel IH]; intros [[st off] inlen];
    cbn [absorb_blocks snd]; destruct (inlen >=? rate);
    try done; try (by intros [= <-]).
  unfold absorb_block. destruct (xor_in st 0 p off rate); [|done..]. cbn.
  intros Hrun. apply IH in Hrun. cbn in *. lia.
Qed.

Lemma absorb_tail_prefix st pos off inlen :
  off + inlen ≤ Z.of_nat (length buf) →
  absorb_tail st pos (Some (buf ++ extra)) off inlen =
  absorb_tail st pos (Some buf) off inlen.
Proof.
  intros Hfit. unfold absorb_tail. destruct (inlen =? 0); [done|].
  by rewrite xor_in_prefix.
Qed.
End Prefix.

(** X13. [keccak1600_absorb] reads [in[0 .. inlen - 1]] only: bytes that
    follow the first [inlen] bytes in the caller's buffer do not influence
    the result, whatever the context. *)
Theorem absorb_reads_only_inlen_bytes (fuel : nat) (c : keccak1600_ctx)
    (buf extra : list Z) :
  keccak1600_absorb fuel c (Some (buf ++ extra)) (Z.of_nat (length buf)) =
  keccak1600_absorb fuel c (Some buf) (Z.of_nat (length buf)).
Proof.
  unfold keccak1600_absorb, sponge_absorb.
  rewrite absorb_head_prefix.
  destruct (absorb_head keccakf1600 (ctx_a c) (ctx_rate c) (ctx_pos c)
              (Some buf) (Z.of_nat (length buf)))
    as [[[[st pos] off] n]| |] eqn:Ehead; [|done..].
  apply absorb_head_budget in Ehead. cbn.
  rewrite absorb_blocks_prefix by lia.
  destruct (absorb_blocks keccakf1600 fuel (ctx_rate c) (Some buf) (st, off, n))
    as [[[st2 off2] n2]| |] eqn:Eblocks; [|done..].
  apply absorb_blocks_budget in Eblocks. cbn in Eblocks. cbn.
  by rewrite absorb_tail_prefix by lia.
Qed.

(** ** Rates above 200 *)

Lemma xor_loop_overrun (buf : list Z) (pos off : Z) (n : nat) (i : Z)
    (st : list Z) :
  0 ≤ pos → 0 ≤ off → 0 ≤ i → pos + i ≤ 200 → 200 < pos + i + Z.of_nat n →
  off + i + Z.of_nat n ≤ Z.of_nat (length buf) →
  xor_loop n i st pos (Some buf) off = Fault.
Proof.
  intros Hpos Hoff. revert i st.
  induction n as [|n IH]; intros i st Hi Hle Hover Hbuf; [lia|].
  destruct (lookup_lt_is_Some_2 buf (Z.to_nat (off + i)) ltac:(lia)) as [b Hb].
  cbn [xor_loop in_get].
  replace (0 <=? off + i) with true by lia. rewrite Hb. cbn.
  pose proof SIZE_MOD_big.
  rewrite size_add_small by lia.
  destruct (Z.eq_dec (pos + i) 200) as [E|E].
  - unfold st_xor, st_get. by rewrite in_state_false by lia.
  - rewrite st_xor_ok by lia. cbn. apply IH; lia.
Qed.

Lemma read_loop_overrun (n : nat) (st : list Z) (i : Z) :
  0 ≤ i ≤ 200 → 200 < i + Z.of_nat n → read_loop n st i = Fault.
Proof.
  revert i. induction n as [|n IH]; intros i Hi Hover; [lia|].
  cbn [read_loop].
  destruct (Z.eq_dec i 200) as [E|E].
  - unfold st_get. by rewrite in_state_false by lia.
  - rewrite st_get_ok by lia. cbn. by rewrite IH by lia.
Qed.

(** X12. With a rate above 200, which [keccak1600_init] accepts,
    absorbing or squeezing more than 200 bytes from cursor 0 accesses a
    byte outside the 200 bytes of the state. *)
Theorem rate_above_200_overruns_state (fuel : nat) (c : keccak1600_ctx)
    (buf : list Z) (outlen : Z) :
  ctx_pos c = 0 → 200 < ctx_rate c < SIZE_MOD → (1 ≤ fuel)%nat →
  200 < Z.of_nat (length buf) → 200 < outlen →
  keccak1600_absorb fuel c (Some buf) (Z.of_nat (length buf)) = Fault ∧
  keccak1600_squeeze fuel c outlen = Fault.
Proof.
  intros Hpos Hrate Hfuel Hbuf Hout. destruct fuel as [|fuel]; [lia|]. split.
  - unfold keccak1600_absorb, sponge_absorb, absorb_head.
    rewrite Hpos. cbn [Z.eqb mbind outcome_bind].
    cbn [absorb_blocks snd].
    destruct (Z.geb_spec (Z.of_nat (length buf)) (ctx_rate c)) as [Hge|Hlt].
    + unfold absorb_block, xor_in.
      rewrite xor_loop_overrun by lia. done.
    + cbn. unfold absorb_tail.
      replace (Z.of_nat (length buf) =? 0) with false by lia.
      unfold xor_in. rewrite xor_loop_overrun by lia. done.
  - unfold keccak1600_squeeze, sponge_squeeze.
    cbn [squeeze_loop snd]. replace (outlen =? 0) with false by lia.
    unfold squeeze_chunk. rewrite Hpos.
    replace (0 =? ctx_rate c) with false by lia.
    rewrite size_sub_small by lia. rewrite Z.sub_0_r.
    unfold st_read.
    rewrite read_loop_overrun; [done|lia|].
    destruct (Z.gtb_spec (ctx_rate c) outlen); lia.
Qed.

Lemma rate_above_200_overruns_state_witness :
  keccak1600_absorb 1 (keccak1600_init 201 0x06) (Some (replicate 201 0))
    (Z.of_nat (length (replicate 201 0))) = Fault ∧
  keccak1600_squeeze 1 (keccak1600_init 201 0x06) 201 = Fault.
Proof.
  apply (rate_above_200_overruns_state 1 (keccak1600_init 201 0x06)
           (replicate 201 0) 201).
  - reflexivity.
  - cbn. unfold SIZE_MOD. lia.
  - lia.
  - rewrite length_replicate. lia.
  - lia.
Defined.

(** ** The rounds of the permutation *)

Lemma keccakf1600_as_coded_rounds_witness :
  keccakf1600 keccak_state_zero =
    foldl round_as_coded keccak_state_zero (seq 0 24) ∧
  state_ok (keccakf1600 keccak_state_zero).
Proof.
  apply (keccakf1600_as_coded_rounds keccak_state_zero).
  split; [reflexivity|].
  apply Forall_forall. intros w Hw.
  apply elem_of_replicate in Hw as [-> _]. apply lane_ok_0.
Defined.

(** ** Squeezing inside a block and across its end *)

(** X16. A squeeze that stays inside the block ([pos + n <= rate]) returns
    the state bytes [pos .. pos + n - 1] and changes only the cursor; from
    cursor 0, a squeeze of [rate + k] bytes with [1 <= k <= rate] returns
    the first [rate] bytes of the state followed by the first [k] bytes
    of its permutation, and leaves the permuted state with cursor [k]. *)
Theorem squeeze_within_and_across_block (fuel : nat) (c : keccak1600_ctx)
    (n k : nat) :
  ctx_ok c → (n < fuel)%nat → (Z.to_nat (ctx_rate c) + k < fuel)%nat →
  (ctx_pos c + Z.of_nat n ≤ ctx_rate c →
   keccak1600_squeeze fuel c (Z.of_nat n) =
     Done (bytes_from (ctx_a c) (ctx_pos c) n,
           {| ctx_a := ctx_a c; ctx_rate := ctx_rate c;
              ctx_pos := ctx_pos c + Z.of_nat n;
              ctx_delim := ctx_delim c |})) ∧
  (ctx_pos c = 0 → (1 ≤ k)%nat → Z.of_nat k ≤ ctx_rate c →
   keccak1600_squeeze fuel c (ctx_rate c + Z.of_nat k) =
     Done (bytes_from (ctx_a c) 0 (Z.to_nat (ctx_rate c)) ++
             bytes_from (keccakf1600 (ctx_a c)) 0 k,
           {| ctx_a := keccakf1600 (ctx_a c); ctx_rate := ctx_rate c;
              ctx_pos := Z.of_nat k; ctx_delim := ctx_delim c |})).
Proof.
  intros Hc Hn Hk. pose proof Hc as (Hlen & Hrate & Hpos).
  pose proof keccakf1600_length' as Hperm.
  pose proof (ctx_ok_sq_ok c Hc) as Hsq.
  unfold keccak1600_squeeze. split.
  - intros Hfit. rewrite sponge_squeeze_ok by done.
    unfold squeeze_run. by rewrite squeeze_bytes_window.
  - intros Hpos0 Hk1 Hkr.
    replace (ctx_rate c + Z.of_nat k)
      with (Z.of_nat (Z.to_nat (ctx_rate c) + k)) by lia.
    rewrite sponge_squeeze_ok by done.
    unfold squeeze_run. rewrite squeeze_bytes_app, Hpos0.
    rewrite squeeze_bytes_window by lia. cbn [fst snd].
    rewrite Z.add_0_l, Z2Nat.id by lia.
    rewrite squeeze_bytes_wrap, squeeze_bytes_window by lia.
    cbn [fst snd]. by rewrite Z.add_0_l.
Qed.

Lemma squeeze_within_and_across_block_witness :
  keccak1600_squeeze 9 (keccak1600_init 4 0x1F) (4 + Z.of_nat 2) =
    Done (bytes_from keccak_state_zero 0 (Z.to_nat 4) ++
            bytes_from (keccakf1600 keccak_state_zero) 0 2,
          {| ctx_a := keccakf1600 keccak_state_zero; ctx_rate := 4;
             ctx_pos := Z.of_nat 2; ctx_delim := 0x1F |}).
Proof.
  pose proof (squeeze_within_and_across_block 9 (keccak1600_init 4 0x1F) 3 2)
    as H.
  destruct H as (_ & Hacross).
  - unfold ctx_ok. cbn. lia.
  - lia.
  - cbn. lia.
  - apply Hacross; [reflexivity|lia|cbn; lia].
Defined.

(** ** A cursor left on the end of the block *)

(** X17. On a context whose cursor is on [rate], the state in which
    [keccak1600_squeeze] can return, a zero-length absorb is not a no-op:
    it permutes the state and resets the cursor, for every input
    pointer. *)
Theorem zero_length_absorb_at_block_end (fuel : nat) (c : keccak1600_ctx)
    (p : option (list Z)) :
  1 ≤ ctx_rate c < SIZE_MOD → ctx_pos c = ctx_rate c →
  keccak1600_absorb fuel c p 0 =
    Done {| ctx_a := keccakf1600 (ctx_a c); ctx_rate := ctx_rate c;
            ctx_pos := 0; ctx_delim := ctx_delim c |}.
Proof.
  intros Hrate Hpos. unfold keccak1600_absorb, sponge_absorb, absorb_head.
  rewrite Hpos. replace (ctx_rate c =? 0) with false by lia.
  assert (Hsub : size_sub (ctx_rate c) (ctx_rate c) = 0).
  { unfold size_sub. by rewrite Z.sub_diag. }
  rewrite Hsub. change (0 >? 0) with false. cbn [Z.sub].
  rewrite xor_in_zero by lia. cbn [mbind outcome_bind].
  rewrite size_add_small by lia. rewrite Z.add_0_r, Z.eqb_refl.
  cbn [mbind outcome_bind]. change (0 - 0) with 0.
  rewrite absorb_blocks_zero by lia.
  replace (ctx_rate c =? 0) with false by lia. done.
Qed.

Lemma zero_length_absorb_at_block_end_witness :
  keccak1600_absorb 0 (Ctx keccak_state_zero 136 136 0x06) None 0 =
    Done {| ctx_a := keccakf1600 keccak_state_zero; ctx_rate := 136;
            ctx_pos := 0; ctx_delim := 0x06 |}.
Proof.
  apply (zero_length_absorb_at_block_end 0 (Ctx keccak_state_zero 136 136 0x06)
           None).
  - cbn. unfold SIZE_MOD. lia.
  - reflexivity.
Defined.
